(** * Hand-made 2D convolution: [convolve2d] of the filters notebook

    Shallow embedding of the function [convolve2d] of
    [lecture_3/CEx4_Convolutions_&_Filters.ipynb] (cell "Part 1"), together
    with the few numpy primitives it calls ([shape], [np.pad], [np.zeros],
    slicing, broadcasting [*], [np.sum], item assignment).

    Conventions of the model:
    - a 2-D numpy array is a record carrying its shape and its rows; the
      shape is kept explicitly because numpy arrays of shape [(0, w)] exist
      and differ from those of shape [(0, 0)];
    - array cells are exact rationals ([Qc]); the floating point rounding of
      the concrete program is not modelled;
    - Python integers are [Z] wherever the code subtracts, so that a
      negative output dimension is visible;
    - raising an exception is the [Raise] constructor of [result]. *)

From Stdlib Require Import String List ZArith QArith Qcanon Bool Arith Lia.
Import ListNotations.

Local Open Scope nat_scope.

(** ** Exceptions and the error monad *)

Inductive exn : Type :=
| ValueError_negative_dimensions   (* np.zeros with a negative dimension *)
| ValueError_broadcast             (* operands could not be broadcast together *)
| IndexError.                      (* item assignment out of bounds *)

Inductive result (A : Type) : Type :=
| Ok (a : A)
| Raise (e : exn).

Arguments Ok {A} a.
Arguments Raise {A} e.

Definition bind {A B : Type} (m : result A) (k : A -> result B) : result B :=
  match m with
  | Ok a => k a
  | Raise e => Raise e
  end.

Notation "x <- m ;; k" := (bind m (fun x => k))
  (at level 61, m at next level, right associativity).

(** [for x in l: s = body x s], stopping at the first exception. *)
Fixpoint for_each {A S : Type} (l : list A) (body : A -> S -> result S) (s : S)
  : result S :=
  match l with
  | [] => Ok s
  | x :: l' => s' <- body x s ;; for_each l' body s'
  end.

(** Python's [range(n)] for an integer [n]: empty when [n <= 0]. *)
Definition range (n : Z) : list nat := seq 0 (Z.to_nat n).

(** ** 2-D arrays *)

Record ndarray : Type := mk_ndarray {
  nrows : nat;
  ncols : nat;
  rows : list (list Qc)
}.

Definition shape (a : ndarray) : nat * nat := (nrows a, ncols a).

(** The rows agree with the declared shape. *)
Definition wf (a : ndarray) : bool :=
  (length (rows a) =? nrows a)
  && forallb (fun r => length r =? ncols a) (rows a).

(** Reading cell [(i, j)]. Only used inside the bounds of the array, where
    the default is never returned. *)
Definition get (a : ndarray) (i j : nat) : Qc :=
  nth j (nth i (rows a) []) 0%Qc.

(** Builds the [h]x[w] array whose cell [(i, j)] is [f i j]. *)
Definition tabulate (h w : nat) (f : nat -> nat -> Qc) : ndarray :=
  {| nrows := h; ncols := w;
     rows := map (fun i => map (f i) (seq 0 w)) (seq 0 h) |}.

(** [np.zeros((h, w))]: numpy refuses negative dimensions. *)
Definition np_zeros (h w : Z) : result ndarray :=
  if ((h <? 0) || (w <? 0))%Z then Raise ValueError_negative_dimensions
  else Ok {| nrows := Z.to_nat h; ncols := Z.to_nat w;
             rows := repeat (repeat 0%Qc (Z.to_nat w)) (Z.to_nat h) |}.

(** [np.pad(a, ((ph, ph), (pw, pw)), mode='constant')]: [ph] rows of zeros
    above and below, [pw] zeros before and after every row. *)
Definition np_pad (a : ndarray) (ph pw : nat) : ndarray :=
  let w' := pw + ncols a + pw in
  {| nrows := ph + nrows a + ph;
     ncols := w';
     rows := repeat (repeat 0%Qc w') ph
             ++ map (fun r => repeat 0%Qc pw ++ r ++ repeat 0%Qc pw) (rows a)
             ++ repeat (repeat 0%Qc w') ph |}.

(** Python slice [l[lo:hi]] for [0 <= lo <= hi]: clipped at the end of [l]. *)
Definition slice1 {A : Type} (lo hi : nat) (l : list A) : list A :=
  firstn (hi - lo) (skipn lo l).

(** [a[r0:r1, c0:c1]]. *)
Definition slice (a : ndarray) (r0 r1 c0 c1 : nat) : ndarray :=
  {| nrows := Nat.min (r1 - r0) (nrows a - r0);
     ncols := Nat.min (c1 - c0) (ncols a - c0);
     rows := map (slice1 c0 c1) (slice1 r0 r1 (rows a)) |}.

(** numpy broadcasting of one axis: equal lengths, or one of them is 1. *)
Definition broadcast_dim (m n : nat) : option nat :=
  if m =? n then Some m
  else if m =? 1 then Some n
  else if n =? 1 then Some m
  else None.

(** Index used on an axis of length [d] when broadcasting. *)
Definition bidx (d i : nat) : nat := if d =? 1 then 0 else i.

(** [a * b] on arrays: element-wise product after broadcasting. *)
Definition np_multiply (a b : ndarray) : result ndarray :=
  match broadcast_dim (nrows a) (nrows b), broadcast_dim (ncols a) (ncols b) with
  | Some h, Some w =>
      Ok (tabulate h w (fun i j =>
            (get a (bidx (nrows a) i) (bidx (ncols a) j)
             * get b (bidx (nrows b) i) (bidx (ncols b) j))%Qc))
  | _, _ => Raise ValueError_broadcast
  end.

Definition sum_list (l : list Qc) : Qc := fold_right Qcplus 0%Qc l.

(** [np.sum(a)]: the sum of all cells. *)
Definition np_sum (a : ndarray) : Qc := sum_list (map sum_list (rows a)).

(** Replaces element [i] of a list by [f] of it; the list is unchanged when
    [i] is out of range. *)
Fixpoint update_nth {A : Type} (i : nat) (f : A -> A) (l : list A) : list A :=
  match l, i with
  | [], _ => []
  | x :: l', O => f x :: l'
  | x :: l', S i' => x :: update_nth i' f l'
  end.

(** [a[i, j] = v] for non-negative [i], [j]: IndexError out of bounds. *)
Definition setitem (a : ndarray) (i j : nat) (v : Qc) : result ndarray :=
  if (i <? nrows a) && (j <? ncols a)
  then Ok {| nrows := nrows a; ncols := ncols a;
             rows := update_nth i (update_nth j (fun _ => v)) (rows a) |}
  else Raise IndexError.

(** ** convolve2d *)

(** The padding step of [convolve2d]: the image the sliding window runs
    over. Only the exact string ['same'] pads.
<<
    kernel_height, kernel_width = kernel.shape
    if padding == 'same':
        pad_h = kernel_height // 2
        pad_w = kernel_width // 2
        image = np.pad(image, ((pad_h, pad_h), (pad_w, pad_w)), mode='constant')
>> *)
Definition pad_image (image kernel : ndarray) (padding : string) : ndarray :=
  let '(kernel_height, kernel_width) := shape kernel in
  if String.eqb padding "same" then
    let pad_h := kernel_height / 2 in
    let pad_w := kernel_width / 2 in
    np_pad image pad_h pad_w
  else image.

(** One iteration of the inner loop body.
<<
    region = image[i:i+kernel_height, j:j+kernel_width]
    output[i, j] = np.sum(region * kernel)
>> *)
Definition convolve2d_cell (image kernel : ndarray) (i j : nat)
    (output : ndarray) : result ndarray :=
  let '(kernel_height, kernel_width) := shape kernel in
  let region := slice image i (i + kernel_height) j (j + kernel_width) in
  prod <- np_multiply region kernel ;;
  setitem output i j (np_sum prod).

(** The part of [convolve2d] after the padding step; [image] is the
    possibly padded image, whose shape is read again.
<<
    image_height, image_width = image.shape
    output_height = image_height - kernel_height + 1
    output_width = image_width - kernel_width + 1
    output = np.zeros((output_height, output_width))
    for i in range(output_height):
        for j in range(output_width):
            ...
    return output
>> *)
Definition convolve2d_core (image kernel : ndarray) : result ndarray :=
  let '(image_height, image_width) := shape image in
  let '(kernel_height, kernel_width) := shape kernel in
  let output_height := (Z.of_nat image_height - Z.of_nat kernel_height + 1)%Z in
  let output_width := (Z.of_nat image_width - Z.of_nat kernel_width + 1)%Z in
  output <- np_zeros output_height output_width ;;
  for_each (range output_height) (fun i output =>
    for_each (range output_width) (fun j output =>
      convolve2d_cell image kernel i j output) output) output.

(** [convolve2d(image, kernel, padding)]. *)
Definition convolve2d (image kernel : ndarray) (padding : string)
  : result ndarray :=
  convolve2d_core (pad_image image kernel padding) kernel.

(** ** Quantities used to state the properties *)

(** [sum_{k < n} f k]. *)
Fixpoint big_sum (n : nat) (f : nat -> Qc) : Qc :=
  match n with
  | O => 0%Qc
  | S n' => (big_sum n' f + f n')%Qc
  end.

(** The cross-correlation sum at output position [(i, j)]:
    [sum_{r < Kh} sum_{c < Kw} image[i+r][j+c] * kernel[r][c]]. *)
Definition window_sum (image kernel : ndarray) (i j : nat) : Qc :=
  big_sum (nrows kernel) (fun r =>
    big_sum (ncols kernel) (fun c =>
      (get image (i + r) (j + c) * get kernel r c)%Qc)).

(** Output dimensions computed by the code, as Python integers. *)
Definition output_height (image kernel : ndarray) (padding : string) : Z :=
  (Z.of_nat (nrows (pad_image image kernel padding))
   - Z.of_nat (nrows kernel) + 1)%Z.

Definition output_width (image kernel : ndarray) (padding : string) : Z :=
  (Z.of_nat (ncols (pad_image image kernel padding))
   - Z.of_nat (ncols kernel) + 1)%Z.

(** The rational [n/1]. *)
Definition qc (n : Z) : Qc := Q2Qc (inject_Z n).

(** A constant array, e.g. [np.ones((h, w)) * v]. *)
Definition full (h w : nat) (v : Qc) : ndarray :=
  {| nrows := h; ncols := w; rows := repeat (repeat v w) h |}.

(** [np.ones((3, 3)) / 9]. *)
Definition averaging_kernel : ndarray := full 3 3 (1 / qc 9)%Qc.

(** The 1x1 kernel [[1]]. *)
Definition identity_kernel : ndarray := full 1 1 1%Qc.

(** Element-wise combination [a*K1 + b*K2] of two arrays of equal shape. *)
Definition lin_comb (a : Qc) (k1 : ndarray) (b : Qc) (k2 : ndarray) : ndarray :=
  tabulate (nrows k1) (ncols k1)
    (fun i j => (a * get k1 i j + b * get k2 i j)%Qc).

(** Inputs of the worked examples. *)
Definition grid_4x4 : ndarray := full 4 4 1%Qc.
Definition kernel_5x5 : ndarray := full 5 5 1%Qc.
Definition kernel_2x3 : ndarray := full 2 3 1%Qc.
Definition grid_3x3_255 : ndarray := full 3 3 (qc 255).

(** ** The kernels of the notebook *)

(** [np.array(l)] for a rectangular literal [l] of integers. *)
Definition np_array (l : list (list Z)) : ndarray :=
  {| nrows := length l; ncols := length (hd [] l); rows := map (map qc) l |}.

Definition sobel_x : ndarray :=
  np_array [[-1; 0; 1];
            [-2; 0; 2];
            [-1; 0; 1]]%Z.

Definition sobel_y : ndarray :=
  np_array [[-1; -2; -1];
            [ 0;  0;  0];
            [ 1;  2;  1]]%Z.

Definition prewitt_x : ndarray :=
  np_array [[-1; 0; 1];
            [-1; 0; 1];
            [-1; 0; 1]]%Z.

Definition prewitt_y : ndarray :=
  np_array [[-1; -1; -1];
            [ 0;  0;  0];
            [ 1;  1;  1]]%Z.

(** The filter bank of Part 6, in dictionary order. *)
Definition laplacian : ndarray :=
  np_array [[0; -1; 0]; [-1; 4; -1]; [0; -1; 0]]%Z.

Definition sharpening : ndarray :=
  np_array [[0; -1; 0]; [-1; 5; -1]; [0; -1; 0]]%Z.

(** [np.ones((5, 5)) / 25]. *)
Definition gaussian_blur : ndarray := full 5 5 (1 / qc 25)%Qc.

Definition filters : list (string * ndarray) :=
  [("Sobel X", sobel_x); ("Sobel Y", sobel_y); ("Laplacian", laplacian);
   ("Sharpening", sharpening); ("Gaussian Blur", gaussian_blur)]%string.

(** ** Operations used to state further properties *)


(** [x <= y] on cells, as a boolean. *)
Definition Qcleb (x y : Qc) : bool :=
  match (x ?= y)%Qc with Gt => false | _ => true end.

(** Every cell of the array satisfies [p]. *)
Definition all_cells (p : Qc -> bool) (a : ndarray) : bool :=
  forallb (forallb p) (rows a).

(** ** More numpy primitives *)

(** A broadcasting element-wise binary operation ([np.add], [np.maximum],
    ...), with the broadcasting rule of [np_multiply]. *)
Definition np_binop (f : Qc -> Qc -> Qc) (a b : ndarray) : result ndarray :=
  match broadcast_dim (nrows a) (nrows b), broadcast_dim (ncols a) (ncols b) with
  | Some h, Some w =>
      Ok (tabulate h w (fun i j =>
            f (get a (bidx (nrows a) i) (bidx (ncols a) j))
              (get b (bidx (nrows b) i) (bidx (ncols b) j))))
  | _, _ => Raise ValueError_broadcast
  end.

(** An element-wise unary operation, or a binary one with a scalar. *)
Definition np_map (f : Qc -> Qc) (a : ndarray) : ndarray :=
  {| nrows := nrows a; ncols := ncols a; rows := map (map f) (rows a) |}.

Definition Qcmax (x y : Qc) : Qc := if Qcleb x y then y else x.
Definition Qcmin (x y : Qc) : Qc := if Qcleb x y then x else y.
Definition Qcabs (x : Qc) : Qc := if Qcleb 0 x then x else (- x)%Qc.

(** [a + b], [np.maximum(a, b)], [a ** 2], [np.abs(a)]. *)
Definition np_add : ndarray -> ndarray -> result ndarray := np_binop Qcplus.
Definition np_maximum : ndarray -> ndarray -> result ndarray := np_binop Qcmax.
Definition np_square : ndarray -> ndarray := np_map (fun x => (x * x)%Qc).
Definition np_abs : ndarray -> ndarray := np_map Qcabs.

(** [np.zeros_like(a)]. *)
Definition np_zeros_like (a : ndarray) : ndarray := full (nrows a) (ncols a) 0%Qc.

(** [a.max()]: numpy raises ValueError on an array without cells, which is
    [None] here. *)
Definition np_max (a : ndarray) : option Qc :=
  match concat (rows a) with
  | [] => None
  | x :: l => Some (fold_left Qcmax l x)
  end.

(** ** apply_sobel_filters *)

(** The square root on cells is not a rational function; it is a parameter
    of the model. *)
Section SobelFilters.

Variable sqrt_cell : Qc -> Qc.

(** [np.sqrt(a)]. *)
Definition np_sqrt : ndarray -> ndarray := np_map sqrt_cell.

(**
<<
  grad_x = convolve2d(image, sobel_x, padding='same')
  grad_y = convolve2d(image, sobel_y, padding='same')
  grad_magnitude = np.sqrt(grad_x**2 + grad_y**2)
  return grad_x, grad_y, grad_magnitude
>> *)
Definition apply_sobel_filters (image : ndarray)
  : result (ndarray * ndarray * ndarray) :=
  grad_x <- convolve2d image sobel_x "same" ;;
  grad_y <- convolve2d image sobel_y "same" ;;
  sum_sq <- np_add (np_square grad_x) (np_square grad_y) ;;
  let grad_magnitude := np_sqrt sum_sq in
  Ok (grad_x, grad_y, grad_magnitude).

End SobelFilters.

(** ** The plotting functions, as the list of their [imshow] calls *)

(** One call [axes[row, col].imshow(data, vmin=..., vmax=...)]; the colour
    limits are [None] when the call does not give them. *)
Record imshow_call : Type := mk_imshow {
  axis_pos : nat * nat;
  shown : ndarray;
  color_limits : option (Qc * Qc)
}.

(** [visualize_filter(kernel)]: three panels on a 1x3 grid; [None] stands
    for the ValueError of [.max()] on a kernel without cells.
<<
    im1 = axes[0].imshow(kernel, vmin=-np.abs(kernel).max(), vmax=np.abs(kernel).max())
    positive = np.maximum(kernel, 0)
    im2 = axes[1].imshow(positive, cmap='Reds')
    negative = np.minimum(kernel, 0)
    im3 = axes[2].imshow(negative, cmap='Blues_r')
>> *)
Definition visualize_filter (kernel : ndarray) : option (list imshow_call) :=
  match np_max (np_abs kernel), np_max (np_abs kernel) with
  | Some m1, Some m2 =>
      let im1 := mk_imshow (0, 0) kernel (Some ((- m1)%Qc, m2)) in
      let positive := np_map (fun x => Qcmax x 0%Qc) kernel in
      let im2 := mk_imshow (0, 1) positive None in
      let negative := np_map (fun x => Qcmin x 0%Qc) kernel in
      let im3 := mk_imshow (0, 2) negative None in
      Some [im1; im2; im3]
  | _, _ => None
  end.

(** The first loop of [visualize_corner_detection], from index [idx] on:
<<
    for idx, (filter_kernel, name) in enumerate(corner_filters):
        result = convolve2d(img, filter_kernel, padding='same')
        row = (idx + 1) // 3
        col = (idx + 1) % 3
        axes[row, col].imshow(result, cmap='RdBu_r')
>>
    [axes] is a 2x3 array: an index outside it raises IndexError. *)
Fixpoint corner_panels (img : ndarray) (idx : nat) (corner_filters : list ndarray)
  : result (list imshow_call) :=
  match corner_filters with
  | [] => Ok []
  | filter_kernel :: rest =>
      result <- convolve2d img filter_kernel "same" ;;
      let row := (idx + 1) / 3 in
      let col := (idx + 1) mod 3 in
      if (row <? 2) && (col <? 3) then
        panels <- corner_panels img (S idx) rest ;;
        Ok (mk_imshow (row, col) result None :: panels)
      else Raise IndexError
  end.

(** The second loop:
<<
    all_corners = np.zeros_like(img, dtype=np.float32)
    for filter_kernel, _ in corner_filters:
        result = convolve2d(img, filter_kernel, padding='same')
        all_corners = np.maximum(all_corners, result)
>> *)
Definition combine_corners (img : ndarray) (corner_filters : list ndarray)
  : result ndarray :=
  for_each corner_filters (fun filter_kernel all_corners =>
    result <- convolve2d img filter_kernel "same" ;;
    np_maximum all_corners result) (np_zeros_like img).

(** [visualize_corner_detection(img)]; the four corner kernels are globals
    that the notebook leaves to the reader, hence parameters here. *)
Definition visualize_corner_detection
    (corner_top_left corner_top_right corner_bottom_left corner_bottom_right
       : ndarray) (img : ndarray) : result (list imshow_call) :=
  let original := mk_imshow (0, 0) img None in
  let corner_filters :=
    [corner_top_left; corner_top_right; corner_bottom_left; corner_bottom_right] in
  panels <- corner_panels img 0 corner_filters ;;
  all_corners <- combine_corners img corner_filters ;;
  Ok (original :: panels ++ [mk_imshow (1, 2) all_corners None]).

(** ** Assignment to slices and masks *)

(** One component of a subscript: an integer [k] or a slice [lo:hi]. *)
Inductive index : Type :=
| At (k : nat)
| Range (lo hi : nat).

(** An integer subscript must be inside the axis; a slice is clipped. *)
Definition index_in_bounds (n : nat) (ix : index) : bool :=
  match ix with
  | At k => k <? n
  | Range _ _ => true
  end.

Definition selects (ix : index) (k : nat) : bool :=
  match ix with
  | At k' => k =? k'
  | Range lo hi => (lo <=? k) && (k <? hi)
  end.

(** [map] with the position of each element. *)
Definition imap {A B : Type} (f : nat -> A -> B) (l : list A) : list B :=
  map (fun p => f (fst p) (snd p)) (combine (seq 0 (length l)) l).

(** [a[ri, ci] = v] for a scalar [v]. *)
Definition setitem_region (a : ndarray) (ri ci : index) (v : Qc) : result ndarray :=
  if index_in_bounds (nrows a) ri && index_in_bounds (ncols a) ci then
    Ok {| nrows := nrows a; ncols := ncols a;
          rows := imap (fun i row =>
                    imap (fun j x => if selects ri i && selects ci j then v else x)
                         row) (rows a) |}
  else Raise IndexError.

(** The boolean array [(x - cx)**2 + (y - cy)**2 <= radius**2] for
    [y, x = np.ogrid[:h, :w]]: [y] runs over the rows, [x] over the columns. *)
Definition circle_mask (h w : nat) (center : Z * Z) (radius : Z) : list (list bool) :=
  map (fun y => map (fun x =>
         ((Z.of_nat x - fst center) ^ 2 + (Z.of_nat y - snd center) ^ 2
          <=? radius ^ 2)%Z) (seq 0 w)) (seq 0 h).

(** [a[mask] = v] for a boolean array [mask], which must have the shape of
    [a]. *)
Definition setitem_mask (a : ndarray) (mask : list (list bool)) (v : Qc)
  : result ndarray :=
  if (length mask =? nrows a) && forallb (fun r => length r =? ncols a) mask then
    Ok {| nrows := nrows a; ncols := ncols a;
          rows := imap (fun i row =>
                    imap (fun j x => if nth j (nth i mask []) false then v else x)
                         row) (rows a) |}
  else Raise IndexError.

(** ** create_test_images *)

(**
<<
    img_lines = np.zeros((100, 100))
    img_lines[40:60, 20] = 255  # Vertical line
    img_lines[40:60, 80] = 255  # Vertical line
    img_lines[20, 30:70] = 255  # Horizontal line
    img_lines[80, 30:70] = 255  # Horizontal line
>> *)
Definition img_lines : result ndarray :=
  img <- np_zeros 100 100 ;;
  img <- setitem_region img (Range 40 60) (At 20) (qc 255) ;;
  img <- setitem_region img (Range 40 60) (At 80) (qc 255) ;;
  img <- setitem_region img (At 20) (Range 30 70) (qc 255) ;;
  setitem_region img (At 80) (Range 30 70) (qc 255).

(**
<<
    img_square = np.zeros((100, 100))
    img_square[30:70, 30:70] = 255
>> *)
Definition img_square : result ndarray :=
  img <- np_zeros 100 100 ;;
  setitem_region img (Range 30 70) (Range 30 70) (qc 255).

(**
<<
    img_diag = np.zeros((100, 100))
    for i in range(40):
        img_diag[30+i, 30+i] = 255  # Diagonal \
        img_diag[30+i, 70-i] = 255  # Diagonal /
>>
    ([70 - i] is never negative for [i < 40].) *)
Definition img_diag : result ndarray :=
  img <- np_zeros 100 100 ;;
  for_each (range 40) (fun i img =>
    img <- setitem img (30 + i) (30 + i) (qc 255) ;;
    setitem img (30 + i) (70 - i) (qc 255)) img.

(**
<<
    img_corners = np.zeros((100, 100))
    img_corners[20:30, 20] = 255 ; img_corners[20, 20:30] = 255   # Top-left
    img_corners[20:30, 70] = 255 ; img_corners[20, 70:80] = 255   # Top-right
    img_corners[70:80, 20] = 255 ; img_corners[80, 20:30] = 255   # Bottom-left
    img_corners[70:80, 70] = 255 ; img_corners[80, 70:80] = 255   # Bottom-right
>> *)
Definition img_corners : result ndarray :=
  img <- np_zeros 100 100 ;;
  img <- setitem_region img (Range 20 30) (At 20) (qc 255) ;;
  img <- setitem_region img (At 20) (Range 20 30) (qc 255) ;;
  img <- setitem_region img (Range 20 30) (At 70) (qc 255) ;;
  img <- setitem_region img (At 20) (Range 70 80) (qc 255) ;;
  img <- setitem_region img (Range 70 80) (At 20) (qc 255) ;;
  img <- setitem_region img (At 80) (Range 20 30) (qc 255) ;;
  img <- setitem_region img (Range 70 80) (At 70) (qc 255) ;;
  setitem_region img (At 80) (Range 70 80) (qc 255).

(**
<<
    img_circle = np.zeros((100, 100))
    center = (50, 50)
    radius = 25
    y, x = np.ogrid[:100, :100]
    mask = (x - center[0])**2 + (y - center[1])**2 <= radius**2
    img_circle[mask] = 255
>> *)
Definition img_circle : result ndarray :=
  img <- np_zeros 100 100 ;;
  let center := (50, 50)%Z in
  let radius := 25%Z in
  let mask := circle_mask 100 100 center radius in
  setitem_mask img mask (qc 255).

(** The dictionary [images], in insertion order. *)
Definition create_test_images : result (list (string * ndarray)) :=
  lines <- img_lines ;;
  square <- img_square ;;
  diagonals <- img_diag ;;
  corners <- img_corners ;;
  circle <- img_circle ;;
  Ok [("lines", lines); ("square", square); ("diagonals", diagonals);
      ("corners", corners); ("circle", circle)]%string.

(** [images[name]]: [None] stands for KeyError. *)
Fixpoint dict_get (images : list (string * ndarray)) (name : string)
  : option ndarray :=
  match images with
  | [] => None
  | (k, v) :: rest => if String.eqb k name then Some v else dict_get rest name
  end.

(** Equality of cells, as a boolean. *)
Definition Qceqb (x y : Qc) : bool := Qeq_bool x y.

(** ** create_real_test_image *)

(** [np.clip(a, lo, hi)]. *)
Definition np_clip (a : ndarray) (lo hi : Qc) : ndarray :=
  np_map (fun x => Qcmin (Qcmax x lo) hi) a.

(** The image before the noise is added.
<<
    img = np.zeros((200, 200), dtype=np.float32)
    img[50:100, 30:80] = 200
    center = (150, 60)
    y, x = np.ogrid[:200, :200]
    mask = (x - center[0])**2 + (y - center[1])**2 <= 30**2
    img[mask] = 150
    for i in range(40):
        for j in range(i):
            img[140 + i, 100 + j - i//2] = 180
>>
    ([100 + j - i//2] is never negative for [i < 40].) *)
Definition real_test_base : result ndarray :=
  img <- np_zeros 200 200 ;;
  img <- setitem_region img (Range 50 100) (Range 30 80) (qc 200) ;;
  let center := (150, 60)%Z in
  let mask := circle_mask 200 200 center 30 in
  img <- setitem_mask img mask (qc 150) ;;
  for_each (range 40) (fun i img =>
    for_each (range (Z.of_nat i)) (fun j img =>
      setitem img (140 + i) (100 + j - i / 2) (qc 180)) img) img.

(** [np.random.normal(0, 10, shape)] is the parameter [normal]: the noise
    array drawn for a given shape.
<<
    noise = np.random.normal(0, 10, img.shape)
    img = img + noise
    img = np.clip(img, 0, 255)
    return img
>> *)
Definition create_real_test_image (normal : nat * nat -> ndarray)
  : result ndarray :=
  img <- real_test_base ;;
  let noise := normal (shape img) in
  img <- np_add img noise ;;
  let img := np_clip img 0%Qc (qc 255) in
  Ok img.

(** ** Predicates used to state further properties *)

(** The 'same'-mode response to a kernel, whatever its shape. *)
Definition same_response (img kernel : ndarray) : ndarray :=
  let img' := pad_image img kernel "same" in
  tabulate (nrows img' + 1 - nrows kernel) (ncols img' + 1 - ncols kernel)
    (window_sum img' kernel).

(** Both dimensions of the kernel are odd. *)
Definition odd_shaped (kernel : ndarray) : bool :=
  Nat.odd (nrows kernel) && Nat.odd (ncols kernel).

(** A well-formed [h]x[w] array whose cells all satisfy [p]. *)
Definition is_image (h w : nat) (p : Qc -> bool) (a : ndarray) : bool :=
  wf a && (nrows a =? h) && (ncols a =? w) && all_cells p a.

(** A cell of a black-and-white image: 0 or 255. *)
Definition binary_cell (x : Qc) : bool := Qceqb x 0%Qc || Qceqb x (qc 255).

(** The cell is in the pixel range [0, 255]. *)
Definition pixel_cell (x : Qc) : bool := Qcleb 0%Qc x && Qcleb x (qc 255).

(** [a[i][j]] is [v] where [lit i j] holds and 0 elsewhere, for all cells
    of an [h]x[w] array. *)
Definition drawn_as (h w : nat) (lit : nat -> nat -> bool) (v : Qc) (a : ndarray)
  : bool :=
  forallb (fun i => forallb (fun j =>
    Qceqb (get a i j) (if lit i j then v else 0%Qc)) (seq 0 w)) (seq 0 h).

(** Where each test image is lit, read off the comments of
    [create_test_images]: row [i], column [j]. *)
Definition lines_lit (i j : nat) : bool :=
  ((40 <=? i) && (i <? 60) && ((j =? 20) || (j =? 80)))
  || (((i =? 20) || (i =? 80)) && (30 <=? j) && (j <? 70)).

Definition square_lit (i j : nat) : bool :=
  (30 <=? i) && (i <? 70) && (30 <=? j) && (j <? 70).

Definition diagonals_lit (i j : nat) : bool :=
  (30 <=? i) && (i <? 70) && ((j =? i) || (i + j =? 100)).

(** An L with its corner at [(r, c)], one arm of 10 cells along row [r]
    and one arm from row [r0] to row [r0 + 9] along column [c]. *)
Definition l_shape_lit (r r0 c : nat) (i j : nat) : bool :=
  ((i =? r) && (c <=? j) && (j <? c + 10))
  || ((j =? c) && (r0 <=? i) && (i <? r0 + 10)).

Definition corners_lit (i j : nat) : bool :=
  l_shape_lit 20 20 20 i j || l_shape_lit 20 20 70 i j
  || l_shape_lit 80 70 20 i j || l_shape_lit 80 70 70 i j.

Definition circle_lit (i j : nat) : bool :=
  ((Z.of_nat j - 50) ^ 2 + (Z.of_nat i - 50) ^ 2 <=? 25 ^ 2)%Z.

(** A cell of the noise-free real test image: background, circle,
    triangle or rectangle. *)
Definition base_cell (x : Qc) : bool :=
  Qceqb x 0%Qc || Qceqb x (qc 150) || Qceqb x (qc 180) || Qceqb x (qc 200).

(** An [h]x[w] image that is [v] on column [c] and 0 elsewhere. *)
Definition vertical_line_image (h w c : nat) (v : Qc) : ndarray :=
  tabulate h w (fun _ j => if j =? c then v else 0%Qc).

(** The cell is an integer of absolute value at most 1024. Products and
    sums of a few thousand such cells are computed without rounding by the
    float64 program, as by the model. *)
Definition small_int (x : Qc) : bool :=
  (Qden x =? 1)%positive && (Z.abs (Qnum x) <=? 1024)%Z.


(** * Properties *)

(** Splits a conjunction into its components, and nothing else. *)
Ltac split_all := repeat match goal with |- _ /\ _ => split end.

(** ** Lists *)

Lemma length_update_nth {A : Type} (f : A -> A) (l : list A) (i : nat) :
  length (update_nth i f l) = length l.
Proof.
  revert i; induction l as [|x l IH]; intros [|i]; simpl; auto.
Qed.

Lemma nth_update_nth {A : Type} (f : A -> A) (d : A) (l : list A) (i k : nat) :
  i < length l ->
  nth k (update_nth i f l) d = if k =? i then f (nth i l d) else nth k l d.
Proof.
  revert i k; induction l as [|x l IH]; intros i k Hi; simpl in Hi; [lia|].
  destruct i as [|i], k as [|k]; simpl; auto.
  apply IH; lia.
Qed.

Lemma Forall_update_nth {A : Type} (P : A -> Prop) (f : A -> A) (l : list A) (i : nat) :
  Forall P l -> (forall x, P x -> P (f x)) -> Forall P (update_nth i f l).
Proof.
  intros Hl Hf; revert i; induction Hl as [|x l Hx Hl IH]; intros [|i]; simpl;
    constructor; auto.
Qed.

Lemma nth_slice1 {A : Type} (d : A) (l : list A) (lo hi k : nat) :
  k < hi - lo -> nth k (slice1 lo hi l) d = nth (lo + k) l d.
Proof.
  intros Hk; unfold slice1.
  rewrite nth_firstn.
  destruct (Nat.ltb_spec k (hi - lo)); [|lia].
  apply nth_skipn.
Qed.

Lemma slice1_nil {A : Type} (lo hi : nat) : slice1 lo hi (@nil A) = [].
Proof.
  unfold slice1; rewrite skipn_nil; apply firstn_nil.
Qed.

Lemma for_each_app {A S : Type} (l1 l2 : list A) (body : A -> S -> result S) (s : S) :
  for_each (l1 ++ l2) body s = s' <- for_each l1 body s ;; for_each l2 body s'.
Proof.
  revert s; induction l1 as [|x l1 IH]; intros s; simpl; auto.
  destruct (body x s); simpl; auto.
Qed.

Lemma for_each_ext_in {A S : Type} (l : list A) (body1 body2 : A -> S -> result S) (s : S) :
  (forall x s', In x l -> body1 x s' = body2 x s') ->
  for_each l body1 s = for_each l body2 s.
Proof.
  revert s; induction l as [|x l IH]; intros s H; simpl; auto.
  rewrite (H x s (or_introl eq_refl)).
  destruct (body2 x s); simpl; auto.
  apply IH; intros; apply H; right; assumption.
Qed.

(** ** Finite sums *)

Lemma big_sum_ext (n : nat) (f g : nat -> Qc) :
  (forall k, k < n -> f k = g k) -> big_sum n f = big_sum n g.
Proof.
  induction n as [|n IH]; intros H; simpl; auto.
  rewrite IH, (H n); auto.
Qed.

Lemma big_sum_linear (n : nat) (a b : Qc) (f g : nat -> Qc) :
  big_sum n (fun k => a * f k + b * g k)%Qc
  = (a * big_sum n f + b * big_sum n g)%Qc.
Proof.
  induction n as [|n IH]; simpl; [ring|].
  rewrite IH; ring.
Qed.

Lemma sum_list_app (l1 l2 : list Qc) :
  sum_list (l1 ++ l2) = (sum_list l1 + sum_list l2)%Qc.
Proof.
  induction l1 as [|x l1 IH]; simpl; [ring|].
  rewrite IH; ring.
Qed.

Lemma sum_list_map_seq (n : nat) (f : nat -> Qc) :
  sum_list (map f (seq 0 n)) = big_sum n f.
Proof.
  induction n as [|n IH]; [reflexivity|].
  rewrite seq_S, map_app, sum_list_app, IH; simpl; ring.
Qed.

(** ** Well-formed arrays *)

Lemma wf_spec (a : ndarray) :
  wf a = true <->
  length (rows a) = nrows a /\ Forall (fun r => length r = ncols a) (rows a).
Proof.
  unfold wf; rewrite andb_true_iff, Nat.eqb_eq, forallb_forall, Forall_forall.
  split; intros [H1 H2]; split; auto; intros r Hr; apply Nat.eqb_eq; auto.
Qed.

Lemma wf_row_length (a : ndarray) (i : nat) :
  wf a = true -> i < nrows a -> length (nth i (rows a) []) = ncols a.
Proof.
  intros Hwf Hi; apply wf_spec in Hwf as [Hlen Hall].
  rewrite Forall_forall in Hall; apply Hall, nth_In; lia.
Qed.

Lemma nth_ext_length {A : Type} (d : A) (l1 l2 : list A) :
  length l1 = length l2 ->
  (forall k, k < length l1 -> nth k l1 d = nth k l2 d) -> l1 = l2.
Proof.
  intros Hlen H; apply (nth_ext l1 l2 d d); auto.
Qed.

(** Two well-formed arrays of the same shape with the same cells are equal. *)
Lemma ndarray_ext (a b : ndarray) :
  wf a = true -> wf b = true ->
  nrows a = nrows b -> ncols a = ncols b ->
  (forall i j, i < nrows a -> j < ncols a -> get a i j = get b i j) ->
  a = b.
Proof.
  intros Ha Hb Hr Hc Hget.
  pose proof (fun i => wf_row_length a i Ha) as Hla.
  pose proof (fun i => wf_row_length b i Hb) as Hlb.
  apply wf_spec in Ha as [Ha1 _]; apply wf_spec in Hb as [Hb1 _].
  destruct a as [ha wa ra], b as [hb wb rb]; simpl in *.
  f_equal; try assumption.
  apply (nth_ext_length []); [congruence|].
  intros i Hi.
  apply (nth_ext_length 0%Qc).
  - rewrite Hla, Hlb; lia.
  - intros j Hj; rewrite Hla in Hj by lia.
    apply (Hget i j); lia.
Qed.

Lemma wf_tabulate (h w : nat) (f : nat -> nat -> Qc) : wf (tabulate h w f) = true.
Proof.
  apply wf_spec; simpl; split.
  - rewrite length_map, length_seq; reflexivity.
  - apply Forall_forall; intros r Hr.
    apply in_map_iff in Hr as [i [<- _]].
    rewrite length_map, length_seq; reflexivity.
Qed.

Lemma get_tabulate (h w : nat) (f : nat -> nat -> Qc) (i j : nat) :
  i < h -> j < w -> get (tabulate h w f) i j = f i j.
Proof.
  intros Hi Hj; unfold get, tabulate; simpl.
  rewrite (nth_indep _ [] (map (f 0) (seq 0 w)))
    by (rewrite length_map, length_seq; exact Hi).
  rewrite (map_nth (fun i => map (f i) (seq 0 w)) (seq 0 h) 0 i).
  rewrite seq_nth by exact Hi; simpl.
  rewrite (nth_indep _ 0%Qc (f i 0))
    by (rewrite length_map, length_seq; exact Hj).
  rewrite (map_nth (f i) (seq 0 w) 0 j), seq_nth by exact Hj.
  reflexivity.
Qed.

Lemma tabulate_ext (h w : nat) (f g : nat -> nat -> Qc) :
  (forall i j, i < h -> j < w -> f i j = g i j) -> tabulate h w f = tabulate h w g.
Proof.
  intros H; unfold tabulate; f_equal.
  apply map_ext_in; intros i Hi; apply in_seq in Hi.
  apply map_ext_in; intros j Hj; apply in_seq in Hj.
  apply H; lia.
Qed.

(** A well-formed array is the table of its own cells. *)
Lemma tabulate_get (a : ndarray) :
  wf a = true -> tabulate (nrows a) (ncols a) (get a) = a.
Proof.
  intros Ha; apply ndarray_ext; auto using wf_tabulate.
  intros i j Hi Hj; apply get_tabulate; assumption.
Qed.

Lemma np_sum_tabulate (h w : nat) (f : nat -> nat -> Qc) :
  np_sum (tabulate h w f) = big_sum h (fun i => big_sum w (f i)).
Proof.
  unfold np_sum, tabulate; simpl.
  rewrite map_map, sum_list_map_seq.
  apply big_sum_ext; intros i _; apply sum_list_map_seq.
Qed.

(** ** The numpy primitives *)

Lemma np_zeros_ok (h w : Z) :
  (0 <= h)%Z -> (0 <= w)%Z ->
  np_zeros h w = Ok (full (Z.to_nat h) (Z.to_nat w) 0%Qc).
Proof.
  intros Hh Hw; unfold np_zeros.
  destruct (Z.ltb_spec h 0); [lia|].
  destruct (Z.ltb_spec w 0); [lia|].
  reflexivity.
Qed.

Lemma np_zeros_raise (h w : Z) :
  (h < 0 \/ w < 0)%Z -> np_zeros h w = Raise ValueError_negative_dimensions.
Proof.
  intros H; unfold np_zeros.
  destruct (Z.ltb_spec h 0); [reflexivity|].
  destruct (Z.ltb_spec w 0); [reflexivity|lia].
Qed.

Lemma wf_full (h w : nat) (v : Qc) : wf (full h w v) = true.
Proof.
  apply wf_spec; simpl; split.
  - apply repeat_length.
  - apply Forall_forall; intros r Hr.
    apply repeat_spec in Hr; subst r; apply repeat_length.
Qed.

Lemma setitem_spec (o : ndarray) (i j : nat) (v : Qc) :
  wf o = true -> i < nrows o -> j < ncols o ->
  exists o', setitem o i j v = Ok o' /\ wf o' = true
    /\ nrows o' = nrows o /\ ncols o' = ncols o
    /\ forall i' j', get o' i' j'
                     = if (i' =? i) && (j' =? j) then v else get o i' j'.
Proof.
  intros Hwf Hi Hj; unfold setitem.
  destruct (Nat.ltb_spec i (nrows o)); [|lia].
  destruct (Nat.ltb_spec j (ncols o)); [|lia].
  simpl; eexists; split; [reflexivity|].
  pose proof (wf_row_length o i Hwf Hi) as Hrow.
  apply wf_spec in Hwf as [Hlen Hall].
  repeat split; simpl.
  - apply wf_spec; simpl; split.
    + rewrite length_update_nth; exact Hlen.
    + apply Forall_update_nth; [exact Hall|].
      intros r Hr; rewrite length_update_nth; exact Hr.
  - intros i' j'; unfold get; simpl.
    rewrite nth_update_nth by lia.
    destruct (Nat.eqb_spec i' i) as [->|]; simpl; [|reflexivity].
    rewrite nth_update_nth by lia.
    destruct (Nat.eqb_spec j' j); reflexivity.
Qed.

Lemma get_slice (a : ndarray) (r0 r1 c0 c1 r c : nat) :
  r < r1 - r0 -> c < c1 - c0 ->
  get (slice a r0 r1 c0 c1) r c = get a (r0 + r) (c0 + c).
Proof.
  intros Hr Hc; unfold get, slice; simpl.
  rewrite <- (slice1_nil c0 c1) at 1.
  rewrite (map_nth (slice1 c0 c1)).
  rewrite nth_slice1 by exact Hc.
  rewrite nth_slice1 by exact Hr.
  reflexivity.
Qed.

Lemma broadcast_dim_same (n : nat) : broadcast_dim n n = Some n.
Proof.
  unfold broadcast_dim; rewrite Nat.eqb_refl; reflexivity.
Qed.

Lemma bidx_lt (d i : nat) : i < d -> bidx d i = i.
Proof.
  intros Hi; unfold bidx.
  destruct (Nat.eqb_spec d 1); lia.
Qed.

(** Inside the image, one loop iteration stores the window sum. *)
Lemma convolve2d_cell_setitem (image kernel output : ndarray) (i j : nat) :
  i + nrows kernel <= nrows image -> j + ncols kernel <= ncols image ->
  convolve2d_cell image kernel i j output
  = setitem output i j (window_sum image kernel i j).
Proof.
  intros Hi Hj; unfold convolve2d_cell, np_multiply; simpl.
  replace (Nat.min (i + nrows kernel - i) (nrows image - i))
    with (nrows kernel) by lia.
  replace (Nat.min (j + ncols kernel - j) (ncols image - j))
    with (ncols kernel) by lia.
  rewrite !broadcast_dim_same; simpl.
  f_equal.
  rewrite np_sum_tabulate; unfold window_sum.
  apply big_sum_ext; intros r Hr.
  apply big_sum_ext; intros c Hc.
  rewrite !bidx_lt by assumption.
  rewrite get_slice by lia.
  reflexivity.
Qed.

(** ** The two loops *)

(** Invariant of the inner loop: after [n] iterations on row [i], the first
    [n] cells of that row hold their values and nothing else changed. *)
Lemma fill_row_spec (f : nat -> Qc) (i n : nat) (o : ndarray) :
  wf o = true -> i < nrows o -> n <= ncols o ->
  exists o', for_each (seq 0 n) (fun j out => setitem out i j (f j)) o = Ok o'
    /\ wf o' = true /\ nrows o' = nrows o /\ ncols o' = ncols o
    /\ forall i' j', get o' i' j'
                     = if (i' =? i) && (j' <? n) then f j' else get o i' j'.
Proof.
  intros Hwf Hi; induction n as [|n IH]; intros Hn.
  - exists o; split_all; auto.
    intros i' j'; rewrite andb_false_r; reflexivity.
  - destruct IH as (o1 & Hrun & Hwf1 & Hr1 & Hc1 & Hget1); [lia|].
    destruct (setitem_spec o1 i n (f n)) as (o2 & Hset & Hwf2 & Hr2 & Hc2 & Hget2);
      [assumption|lia|lia|].
    exists o2; rewrite seq_S, for_each_app, Hrun; simpl; rewrite Hset; simpl.
    split_all; try congruence.
    intros i' j'; rewrite Hget2, Hget1.
    destruct (Nat.eqb_spec i' i); simpl; [|reflexivity].
    destruct (Nat.eqb_spec j' n), (Nat.ltb_spec j' n), (Nat.ltb_spec j' (S n));
      try lia; subst; reflexivity.
Qed.

(** Invariant of the outer loop: after [m] rows, the first [m] rows are
    filled and the others untouched. *)
Lemma fill_rows_spec (f : nat -> nat -> Qc) (m n : nat) (o : ndarray) :
  wf o = true -> m <= nrows o -> n <= ncols o ->
  exists o',
    for_each (seq 0 m) (fun i out =>
      for_each (seq 0 n) (fun j out' => setitem out' i j (f i j)) out) o = Ok o'
    /\ wf o' = true /\ nrows o' = nrows o /\ ncols o' = ncols o
    /\ forall i' j', get o' i' j'
                     = if (i' <? m) && (j' <? n) then f i' j' else get o i' j'.
Proof.
  intros Hwf Hm Hn; induction m as [|m IH].
  - exists o; simpl; split_all; auto.
  - destruct IH as (o1 & Hrun & Hwf1 & Hr1 & Hc1 & Hget1); [lia|].
    destruct (fill_row_spec (f m) m n o1) as (o2 & Hrow & Hwf2 & Hr2 & Hc2 & Hget2);
      [assumption|lia|lia|].
    exists o2; rewrite seq_S, for_each_app, Hrun; simpl; rewrite Hrow; simpl.
    split_all; try congruence.
    intros i' j'; rewrite Hget2, Hget1.
    destruct (Nat.eqb_spec i' m), (Nat.ltb_spec i' m), (Nat.ltb_spec i' (S m));
      try lia; simpl; subst; destruct (Nat.ltb_spec j' n); reflexivity.
Qed.

(** ** What convolve2d computes *)

(** When both output dimensions are non-negative, the loops terminate
    without exception and leave the table of window sums. *)
Lemma convolve2d_core_ok (image kernel : ndarray) :
  nrows kernel <= nrows image + 1 -> ncols kernel <= ncols image + 1 ->
  convolve2d_core image kernel
  = Ok (tabulate (nrows image + 1 - nrows kernel) (ncols image + 1 - ncols kernel)
          (window_sum image kernel)).
Proof.
  intros Hh Hw; unfold convolve2d_core; simpl.
  rewrite np_zeros_ok by lia; simpl.
  replace (Z.to_nat (Z.of_nat (nrows image) - Z.of_nat (nrows kernel) + 1))
    with (nrows image + 1 - nrows kernel) by lia.
  replace (Z.to_nat (Z.of_nat (ncols image) - Z.of_nat (ncols kernel) + 1))
    with (ncols image + 1 - ncols kernel) by lia.
  set (oh := nrows image + 1 - nrows kernel).
  set (ow := ncols image + 1 - ncols kernel).
  unfold range.
  replace (Z.to_nat (Z.of_nat (nrows image) - Z.of_nat (nrows kernel) + 1))
    with oh by (unfold oh; lia).
  replace (Z.to_nat (Z.of_nat (ncols image) - Z.of_nat (ncols kernel) + 1))
    with ow by (unfold ow; lia).
  rewrite (for_each_ext_in (seq 0 oh) _
             (fun i out => for_each (seq 0 ow)
                (fun j out' => setitem out' i j (window_sum image kernel i j)) out)).
  2:{ intros i s Hi; apply in_seq in Hi.
      apply for_each_ext_in; intros j s' Hj; apply in_seq in Hj.
      apply convolve2d_cell_setitem; unfold oh, ow in *; lia. }
  destruct (fill_rows_spec (window_sum image kernel) oh ow (full oh ow 0%Qc))
    as (out & Hrun & Hwf & Hr & Hc & Hget);
    [apply wf_full|simpl; lia|simpl; lia|].
  rewrite Hrun; f_equal; simpl in Hr, Hc.
  apply ndarray_ext; auto using wf_tabulate.
  intros i j Hi Hj; rewrite Hr in Hi; rewrite Hc in Hj.
  rewrite Hget, get_tabulate by assumption.
  destruct (Nat.ltb_spec i oh), (Nat.ltb_spec j ow); try lia; reflexivity.
Qed.

(** A negative output dimension is refused by [np.zeros]. *)
Lemma convolve2d_core_raise (image kernel : ndarray) :
  nrows image + 1 < nrows kernel \/ ncols image + 1 < ncols kernel ->
  convolve2d_core image kernel = Raise ValueError_negative_dimensions.
Proof.
  intros H; unfold convolve2d_core; simpl.
  rewrite np_zeros_raise by lia; reflexivity.
Qed.

(** ** Zero padding *)

Lemma nth_zero_rows (w n k j : nat) :
  nth j (nth k (repeat (repeat 0%Qc w) n) []) 0%Qc = 0%Qc.
Proof.
  destruct (Nat.lt_ge_cases k n) as [Hk|Hk].
  - rewrite nth_repeat_lt by exact Hk; apply nth_repeat.
  - rewrite (nth_overflow (repeat (repeat 0%Qc w) n))
      by (rewrite repeat_length; exact Hk).
    destruct j; reflexivity.
Qed.

Lemma wf_np_pad (a : ndarray) (ph pw : nat) :
  wf a = true -> wf (np_pad a ph pw) = true.
Proof.
  intros Hwf; apply wf_spec in Hwf as [Hlen Hall].
  apply wf_spec; simpl; split.
  - rewrite !length_app, length_map, !repeat_length; lia.
  - rewrite !Forall_app; split_all.
    + apply Forall_forall; intros r Hr.
      apply repeat_spec in Hr; subst r; apply repeat_length.
    + apply Forall_forall; intros r Hr.
      apply in_map_iff in Hr as [r0 [<- Hr0]].
      rewrite Forall_forall in Hall.
      rewrite !length_app, !repeat_length, (Hall r0 Hr0); lia.
    + apply Forall_forall; intros r Hr.
      apply repeat_spec in Hr; subst r; apply repeat_length.
Qed.

(** Cell by cell: the image sits at offset [(ph, pw)], zeros elsewhere. *)
Lemma get_np_pad (a : ndarray) (ph pw i j : nat) :
  wf a = true ->
  get (np_pad a ph pw) i j
  = if (ph <=? i) && (i <? ph + nrows a) && (pw <=? j) && (j <? pw + ncols a)
    then get a (i - ph) (j - pw) else 0%Qc.
Proof.
  intros Hwf.
  pose proof (wf_row_length a (i - ph) Hwf) as Hrow.
  apply wf_spec in Hwf as [Hlen _].
  unfold get, np_pad; simpl.
  destruct (Nat.leb_spec ph i) as [Hi|Hi]; simpl.
  2:{ rewrite app_nth1 by (rewrite repeat_length; exact Hi).
      apply nth_zero_rows. }
  rewrite app_nth2, repeat_length by (rewrite repeat_length; exact Hi).
  destruct (Nat.ltb_spec i (ph + nrows a)) as [Hi'|Hi']; simpl.
  2:{ rewrite app_nth2, length_map by (rewrite length_map; lia).
      apply nth_zero_rows. }
  rewrite app_nth1 by (rewrite length_map; lia).
  rewrite (nth_indep _ [] (repeat 0%Qc pw ++ [] ++ repeat 0%Qc pw))
    by (rewrite length_map; lia).
  rewrite (map_nth (fun r => repeat 0%Qc pw ++ r ++ repeat 0%Qc pw)).
  specialize (Hrow ltac:(lia)).
  destruct (Nat.leb_spec pw j) as [Hj|Hj]; simpl.
  2:{ rewrite app_nth1 by (rewrite repeat_length; exact Hj).
      apply nth_repeat. }
  rewrite app_nth2, repeat_length by (rewrite repeat_length; exact Hj).
  destruct (Nat.ltb_spec j (pw + ncols a)) as [Hj'|Hj'].
  - rewrite app_nth1 by lia; reflexivity.
  - rewrite app_nth2 by lia; apply nth_repeat.
Qed.

Lemma np_pad_0 (a : ndarray) : np_pad a 0 0 = a.
Proof.
  destruct a as [h w r]; unfold np_pad; simpl.
  rewrite Nat.add_0_r, Nat.add_0_r, app_nil_r.
  f_equal.
  rewrite <- (map_id r) at 2.
  apply map_ext; intros l; apply app_nil_r.
Qed.

Lemma pad_image_same (image kernel : ndarray) :
  pad_image image kernel "same"
  = np_pad image (nrows kernel / 2) (ncols kernel / 2).
Proof. reflexivity. Qed.

Lemma pad_image_other (image kernel : ndarray) (padding : string) :
  padding <> "same"%string -> pad_image image kernel padding = image.
Proof.
  intros H; unfold pad_image; simpl.
  apply String.eqb_neq in H; rewrite H; reflexivity.
Qed.

(** The padding step looks at the shape of the kernel only. *)
Lemma pad_image_shape_only (image k1 k2 : ndarray) (padding : string) :
  nrows k1 = nrows k2 -> ncols k1 = ncols k2 ->
  pad_image image k1 padding = pad_image image k2 padding.
Proof.
  intros Hr Hc; unfold pad_image; simpl; rewrite Hr, Hc; reflexivity.
Qed.

(** In ['same'] mode no output dimension is negative, whatever the kernel. *)
Lemma same_fits (image kernel : ndarray) :
  let image' := pad_image image kernel "same" in
  nrows kernel <= nrows image' + 1 /\ ncols kernel <= ncols image' + 1.
Proof.
  intros image'; subst image'.
  rewrite pad_image_same; unfold np_pad; cbn [nrows ncols].
  pose proof (Nat.div_mod_eq (nrows kernel) 2) as Hh.
  pose proof (Nat.mod_upper_bound (nrows kernel) 2 ltac:(lia)) as Hh'.
  pose proof (Nat.div_mod_eq (ncols kernel) 2) as Hw.
  pose proof (Nat.mod_upper_bound (ncols kernel) 2 ltac:(lia)) as Hw'.
  lia.
Qed.

Lemma odd_half (n : nat) : Nat.odd n = true -> n / 2 + n / 2 + 1 = n.
Proof.
  intros H; apply Nat.odd_spec in H as [m ->].
  replace ((2 * m + 1) / 2) with m; [lia|].
  apply (Nat.div_unique (2 * m + 1) 2 m 1); lia.
Qed.

Lemma even_half (n : nat) : Nat.even n = true -> n / 2 + n / 2 = n.
Proof.
  intros H; apply Nat.even_spec in H as [m ->].
  replace ((2 * m) / 2) with m; [lia|].
  apply (Nat.div_unique (2 * m) 2 m 0); lia.
Qed.

(** ** convolve2d as a whole *)

Lemma convolve2d_ok (image kernel : ndarray) (padding : string) :
  let image' := pad_image image kernel padding in
  nrows kernel <= nrows image' + 1 -> ncols kernel <= ncols image' + 1 ->
  convolve2d image kernel padding
  = Ok (tabulate (nrows image' + 1 - nrows kernel)
                 (ncols image' + 1 - ncols kernel)
                 (window_sum image' kernel)).
Proof.
  intros image' Hh Hw; unfold convolve2d.
  apply convolve2d_core_ok; assumption.
Qed.

Lemma convolve2d_raise (image kernel : ndarray) (padding : string) :
  let image' := pad_image image kernel padding in
  nrows image' + 1 < nrows kernel \/ ncols image' + 1 < ncols kernel ->
  convolve2d image kernel padding = Raise ValueError_negative_dimensions.
Proof.
  intros image' H; unfold convolve2d.
  apply convolve2d_core_raise; assumption.
Qed.

Lemma convolve2d_unpadded_ok (image kernel : ndarray) (padding : string) :
  padding <> "same"%string ->
  nrows kernel <= nrows image + 1 -> ncols kernel <= ncols image + 1 ->
  convolve2d image kernel padding
  = Ok (tabulate (nrows image + 1 - nrows kernel)
                 (ncols image + 1 - ncols kernel)
                 (window_sum image kernel)).
Proof.
  intros Hp Hh Hw.
  rewrite convolve2d_ok; rewrite pad_image_other by exact Hp; auto.
Qed.

Lemma valid_not_same : "valid"%string <> "same"%string.
Proof. discriminate. Qed.

(** The only exception [convolve2d] can raise, and when. *)
Lemma convolve2d_raise_inv (image kernel : ndarray) (padding : string) (e : exn) :
  convolve2d image kernel padding = Raise e ->
  e = ValueError_negative_dimensions
  /\ padding <> "same"%string
  /\ (nrows image + 1 < nrows kernel \/ ncols image + 1 < ncols kernel).
Proof.
  intros H.
  destruct (string_dec padding "same") as [->|Hp].
  - destruct (same_fits image kernel) as [Hh Hw].
    rewrite convolve2d_ok in H by assumption; discriminate.
  - destruct (Nat.le_gt_cases (nrows kernel) (nrows image + 1)) as [Hh|Hh];
      destruct (Nat.le_gt_cases (ncols kernel) (ncols image + 1)) as [Hw|Hw].
    1:{ rewrite convolve2d_ok in H by (rewrite pad_image_other; assumption).
        discriminate. }
    all: rewrite convolve2d_raise in H by (rewrite pad_image_other; auto);
      inversion H; auto.
Qed.

(** C1, as stated, fails: on a 4x4 grid with a 5x5 kernel in 'valid' mode
    both output dimensions are 0, [np.zeros((0, 0))] succeeds, the loops do
    not run, and the empty 0x0 grid is returned; no exception is raised. *)
Lemma C1_counterexample_valid_5x5_on_4x4 :
  wf grid_4x4 = true /\ wf kernel_5x5 = true
  /\ shape grid_4x4 = (4, 4) /\ shape kernel_5x5 = (5, 5)
  /\ convolve2d grid_4x4 kernel_5x5 "valid"
     = Ok {| nrows := 0; ncols := 0; rows := [] |}
  /\ ~ (exists e, convolve2d grid_4x4 kernel_5x5 "valid" = Raise e).
Proof.
  assert (H : convolve2d grid_4x4 kernel_5x5 "valid"
              = Ok {| nrows := 0; ncols := 0; rows := [] |})
    by (vm_compute; reflexivity).
  split_all; try reflexivity; try exact H.
  intros [e He]; rewrite H in He; discriminate.
Qed.

(** C1 (amended): in 'valid' mode with a kernel higher or wider than the
    image, [convolve2d] raises only when the kernel exceeds the image by two
    or more in some dimension (numpy's ValueError for a negative dimension,
    from [np.zeros]); when it exceeds it by exactly one (and by at most one
    in the other dimension) the call returns the [np.zeros] grid of shape
    (H-Kh+1, W-Kw+1), which has no cell. *)
Theorem C1_valid_oversized_kernel (image kernel : ndarray) :
  nrows image < nrows kernel \/ ncols image < ncols kernel ->
  (nrows kernel <= nrows image + 1 -> ncols kernel <= ncols image + 1 ->
     convolve2d image kernel "valid"
     = Ok (full (nrows image + 1 - nrows kernel)
                (ncols image + 1 - ncols kernel) 0%Qc)
     /\ (nrows image + 1 - nrows kernel = 0 \/ ncols image + 1 - ncols kernel = 0))
  /\ (nrows image + 1 < nrows kernel \/ ncols image + 1 < ncols kernel ->
        convolve2d image kernel "valid" = Raise ValueError_negative_dimensions).
Proof.
  intros Hbig; split.
  - intros Hh Hw; split; [|lia].
    rewrite convolve2d_unpadded_ok by auto using valid_not_same.
    f_equal; apply ndarray_ext; auto using wf_tabulate, wf_full.
    intros i j Hi Hj; cbn [nrows ncols tabulate] in Hi, Hj; lia.
  - intros H; apply convolve2d_raise; assumption.
Qed.

Lemma C1_valid_oversized_kernel_witness :
  convolve2d grid_4x4 kernel_5x5 "valid" = Ok (full 0 0 0%Qc)
  /\ convolve2d grid_4x4 (full 6 5 1%Qc) "valid"
     = Raise ValueError_negative_dimensions.
Proof.
  split.
  - apply (proj1 (C1_valid_oversized_kernel grid_4x4 kernel_5x5
                    (or_introl (Nat.lt_succ_diag_r 4))));
      simpl; lia.
  - apply (proj2 (C1_valid_oversized_kernel grid_4x4 (full 6 5 1%Qc)
                    (or_introl (Nat.lt_lt_succ_r 4 5 (Nat.lt_succ_diag_r 4)))));
      simpl; lia.
Defined.

(** C2, as stated, fails: a 2x3 kernel is accepted in both modes. On a 4x4
    grid it yields a 3x2 grid in 'valid' mode and a 5x4 grid in 'same'
    mode. *)
Lemma C2_counterexample_2x3_kernel :
  shape kernel_2x3 = (2, 3) /\ Nat.even (nrows kernel_2x3) = true
  /\ (exists out, convolve2d grid_4x4 kernel_2x3 "valid" = Ok out
                  /\ shape out = (3, 2))
  /\ (exists out, convolve2d grid_4x4 kernel_2x3 "same" = Ok out
                  /\ shape out = (5, 4)).
Proof.
  split_all; try reflexivity.
  - eexists; split; [apply convolve2d_ok; simpl; lia|reflexivity].
  - eexists; split; [apply convolve2d_ok; simpl; lia|reflexivity].
Qed.

Lemma same_output_rows (image kernel : ndarray) :
  nrows (pad_image image kernel "same") + 1 - nrows kernel
  = nrows image + (if Nat.even (nrows kernel) then 1 else 0).
Proof.
  rewrite pad_image_same; unfold np_pad; cbn [nrows].
  destruct (Nat.even (nrows kernel)) eqn:He.
  - pose proof (even_half _ He); lia.
  - assert (Ho : Nat.odd (nrows kernel) = true)
      by (unfold Nat.odd; rewrite He; reflexivity).
    pose proof (odd_half _ Ho); lia.
Qed.

Lemma same_output_cols (image kernel : ndarray) :
  ncols (pad_image image kernel "same") + 1 - ncols kernel
  = ncols image + (if Nat.even (ncols kernel) then 1 else 0).
Proof.
  rewrite pad_image_same; unfold np_pad; cbn [ncols].
  destruct (Nat.even (ncols kernel)) eqn:He.
  - pose proof (even_half _ He); lia.
  - assert (Ho : Nat.odd (ncols kernel) = true)
      by (unfold Nat.odd; rewrite He; reflexivity).
    pose proof (odd_half _ Ho); lia.
Qed.

(** C2 (amended): [convolve2d] never inspects the parity of the kernel
    shape and has no InvalidKernelShape failure. A kernel of even (possibly
    zero) height or width is accepted in both modes: 'same' mode always
    returns a grid; 'valid' mode returns the (H-Kh+1)x(W-Kw+1) grid
    whenever Kh <= H+1 and Kw <= W+1; and the only exception ever raised is
    numpy's ValueError for a negative dimension, in unpadded mode, when
    Kh > H+1 or Kw > W+1. *)
Theorem C2_even_kernel_accepted (image kernel : ndarray) :
  Nat.even (nrows kernel) = true \/ Nat.even (ncols kernel) = true ->
  (exists out, convolve2d image kernel "same" = Ok out /\ wf out = true)
  /\ (nrows kernel <= nrows image + 1 -> ncols kernel <= ncols image + 1 ->
      exists out, convolve2d image kernel "valid" = Ok out /\ wf out = true
        /\ nrows out = nrows image + 1 - nrows kernel
        /\ ncols out = ncols image + 1 - ncols kernel)
  /\ (forall padding e, convolve2d image kernel padding = Raise e ->
        e = ValueError_negative_dimensions /\ padding <> "same"%string
        /\ (nrows image + 1 < nrows kernel \/ ncols image + 1 < ncols kernel)).
Proof.
  intros _; split_all.
  - destruct (same_fits image kernel) as [Hh Hw].
    eexists; split; [apply convolve2d_ok; assumption|apply wf_tabulate].
  - intros Hh Hw.
    eexists; split;
      [apply convolve2d_unpadded_ok; auto using valid_not_same|].
    split_all; [apply wf_tabulate|reflexivity|reflexivity].
  - intros padding e; apply convolve2d_raise_inv.
Qed.

Lemma C2_even_kernel_accepted_witness :
  (exists out, convolve2d grid_4x4 kernel_2x3 "same" = Ok out /\ wf out = true)
  /\ (exists out, convolve2d grid_4x4 kernel_2x3 "valid" = Ok out /\ wf out = true
        /\ nrows out = 3 /\ ncols out = 2).
Proof.
  pose proof (C2_even_kernel_accepted grid_4x4 kernel_2x3 (or_introl eq_refl))
    as (Hsame & Hvalid & _).
  split; [exact Hsame|].
  apply Hvalid; simpl; lia.
Defined.

(** C3: wherever an output cell (i, j) exists, i.e. 0 <= i < H'-Kh+1 and
    0 <= j < W'-Kw+1 for the (possibly padded) H'xW' image, the call returns
    a grid whose cell (i, j) is the sum over 0 <= r < Kh, 0 <= c < Kw of
    image'[i+r][j+c] * kernel[r][c]: cross-correlation, the kernel is not
    flipped. *)
Theorem C3_cross_correlation (image kernel : ndarray) (padding : string) (i j : nat) :
  let image' := pad_image image kernel padding in
  (0 <= Z.of_nat i < output_height image kernel padding)%Z ->
  (0 <= Z.of_nat j < output_width image kernel padding)%Z ->
  exists out, convolve2d image kernel padding = Ok out
    /\ get out i j
       = big_sum (nrows kernel) (fun r =>
           big_sum (ncols kernel) (fun c =>
             (get image' (i + r) (j + c) * get kernel r c)%Qc)).
Proof.
  intros image' Hi Hj.
  unfold output_height, output_width in Hi, Hj; fold image' in Hi, Hj.
  eexists; split; [apply convolve2d_ok; fold image'; lia|].
  rewrite get_tabulate by (fold image'; lia).
  reflexivity.
Qed.

Lemma C3_cross_correlation_witness :
  exists out, convolve2d grid_4x4 kernel_2x3 "valid" = Ok out
    /\ get out 2 1
       = big_sum 2 (fun r => big_sum 3 (fun c =>
           (get grid_4x4 (2 + r) (1 + c) * get kernel_2x3 r c)%Qc)).
Proof.
  apply (C3_cross_correlation grid_4x4 kernel_2x3 "valid" 2 1);
    vm_compute; split; discriminate || reflexivity.
Defined.

(** The kernel is applied as written: with the kernel [[1, 0, 0]] the
    output picks the left cell of each window (a true convolution, which
    flips the kernel, would pick the right one). *)
Example correlation_picks_left_cell :
  convolve2d {| nrows := 1; ncols := 3; rows := [[qc 10; qc 20; qc 30]] |}
             {| nrows := 1; ncols := 3; rows := [[1; 0; 0]]%Qc |} "valid"
  = Ok {| nrows := 1; ncols := 1; rows := [[qc 10]] |}.
Proof.
  rewrite convolve2d_unpadded_ok by (auto using valid_not_same; simpl; lia).
  f_equal; apply ndarray_ext; reflexivity.
Qed.

(** C10: any padding argument other than the exact string 'same' is
    accepted without complaint and behaves exactly as 'valid': the image is
    left unpadded. *)
Theorem C10_unrecognised_padding_is_valid (image kernel : ndarray) (padding : string) :
  padding <> "same"%string ->
  pad_image image kernel padding = image
  /\ convolve2d image kernel padding = convolve2d image kernel "valid".
Proof.
  intros Hp; unfold convolve2d.
  rewrite (pad_image_other image kernel padding Hp).
  rewrite (pad_image_other image kernel "valid" valid_not_same).
  split; reflexivity.
Qed.

Lemma C10_unrecognised_padding_is_valid_witness :
  pad_image grid_4x4 kernel_2x3 "Same" = grid_4x4
  /\ convolve2d grid_4x4 kernel_2x3 "Same" = convolve2d grid_4x4 kernel_2x3 "valid".
Proof.
  apply (C10_unrecognised_padding_is_valid grid_4x4 kernel_2x3 "Same").
  discriminate.
Defined.

(** C4: in 'same' mode the image the window runs over is the input with
    Kh // 2 rows of zeros above and below and Kw // 2 columns of zeros on
    the left and on the right: its size is (H + 2 pad_h) x (W + 2 pad_w),
    the input sits at offset (pad_h, pad_w) and every other cell is 0. In
    'valid' mode it is the input itself. *)
Theorem C4_same_zero_padding (image kernel : ndarray) :
  wf image = true ->
  let pad_h := nrows kernel / 2 in
  let pad_w := ncols kernel / 2 in
  let padded := pad_image image kernel "same" in
  convolve2d image kernel "same" = convolve2d_core padded kernel
  /\ wf padded = true
  /\ nrows padded = nrows image + 2 * pad_h
  /\ ncols padded = ncols image + 2 * pad_w
  /\ (forall i j, i < nrows image -> j < ncols image ->
        get padded (pad_h + i) (pad_w + j) = get image i j)
  /\ (forall i j, i < nrows padded -> j < ncols padded ->
        i < pad_h \/ pad_h + nrows image <= i
        \/ j < pad_w \/ pad_w + ncols image <= j ->
        get padded i j = 0%Qc)
  /\ pad_image image kernel "valid" = image
  /\ convolve2d image kernel "valid" = convolve2d_core image kernel.
Proof.
  intros Hwf pad_h pad_w padded.
  unfold padded; rewrite pad_image_same; fold pad_h pad_w.
  split_all; try reflexivity.
  - apply wf_np_pad; exact Hwf.
  - unfold np_pad; cbn [nrows]; lia.
  - unfold np_pad; cbn [ncols]; lia.
  - intros i j Hi Hj; rewrite get_np_pad by exact Hwf.
    destruct (Nat.leb_spec pad_h (pad_h + i)); [|lia].
    destruct (Nat.ltb_spec (pad_h + i) (pad_h + nrows image)); [|lia].
    destruct (Nat.leb_spec pad_w (pad_w + j)); [|lia].
    destruct (Nat.ltb_spec (pad_w + j) (pad_w + ncols image)); [|lia].
    simpl; f_equal; lia.
  - intros i j _ _ Hout; rewrite get_np_pad by exact Hwf.
    destruct (Nat.leb_spec pad_h i), (Nat.ltb_spec i (pad_h + nrows image)),
      (Nat.leb_spec pad_w j), (Nat.ltb_spec j (pad_w + ncols image));
      simpl; try reflexivity; lia.
Qed.

Lemma C4_same_zero_padding_witness :
  nrows (pad_image grid_4x4 kernel_5x5 "same") = 8
  /\ ncols (pad_image grid_4x4 kernel_5x5 "same") = 8
  /\ get (pad_image grid_4x4 kernel_5x5 "same") 1 3 = 0%Qc
  /\ get (pad_image grid_4x4 kernel_5x5 "same") (2 + 0) (2 + 3)
     = get grid_4x4 0 3.
Proof.
  pose proof (C4_same_zero_padding grid_4x4 kernel_5x5 eq_refl)
    as (_ & _ & Hr & Hc & Hin & Hout & _).
  split_all.
  - exact Hr.
  - exact Hc.
  - apply Hout; simpl; lia.
  - apply Hin; simpl; lia.
Defined.

(** C5: in 'valid' mode, an odd-sized Kh x Kw kernel that fits in the
    H x W image (Kh <= H, Kw <= W) gives a grid of dimensions
    (H - Kh + 1) x (W - Kw + 1). *)
Theorem C5_valid_output_shape (image kernel : ndarray) :
  Nat.odd (nrows kernel) = true -> Nat.odd (ncols kernel) = true ->
  nrows kernel <= nrows image -> ncols kernel <= ncols image ->
  exists out, convolve2d image kernel "valid" = Ok out /\ wf out = true
    /\ shape out = (nrows image - nrows kernel + 1, ncols image - ncols kernel + 1).
Proof.
  intros _ _ Hh Hw.
  eexists; split;
    [apply convolve2d_unpadded_ok; auto using valid_not_same; lia|].
  split; [apply wf_tabulate|].
  unfold shape; cbn [nrows ncols tabulate]; f_equal; lia.
Qed.

Lemma C5_valid_output_shape_witness :
  exists out, convolve2d grid_4x4 averaging_kernel "valid" = Ok out
    /\ wf out = true /\ shape out = (2, 2).
Proof.
  apply (C5_valid_output_shape grid_4x4 averaging_kernel);
    try reflexivity; simpl; lia.
Defined.

(** C6: in 'same' mode, for an image with H, W >= 1 and an odd-sized
    kernel (which need not fit in the image), the call returns a grid of
    exactly the dimensions H x W of the input. *)
Theorem C6_same_output_shape (image kernel : ndarray) :
  1 <= nrows image -> 1 <= ncols image ->
  Nat.odd (nrows kernel) = true -> Nat.odd (ncols kernel) = true ->
  exists out, convolve2d image kernel "same" = Ok out /\ wf out = true
    /\ shape out = shape image.
Proof.
  intros _ _ Hoh How.
  destruct (same_fits image kernel) as [Hh Hw].
  eexists; split; [apply convolve2d_ok; assumption|].
  split; [apply wf_tabulate|].
  unfold shape; cbn [nrows ncols tabulate].
  rewrite same_output_rows, same_output_cols.
  unfold Nat.odd in Hoh, How.
  apply negb_true_iff in Hoh, How; rewrite Hoh, How.
  f_equal; lia.
Qed.

Lemma C6_same_output_shape_witness :
  exists out, convolve2d grid_4x4 kernel_5x5 "same" = Ok out
    /\ wf out = true /\ shape out = (4, 4).
Proof.
  apply (C6_same_output_shape grid_4x4 kernel_5x5);
    try reflexivity; simpl; lia.
Defined.

Lemma pad_image_identity (image : ndarray) (padding : string) :
  pad_image image identity_kernel padding = image.
Proof.
  unfold pad_image; simpl.
  destruct (String.eqb padding "same"); [apply np_pad_0|reflexivity].
Qed.

Lemma window_sum_identity (image : ndarray) (i j : nat) :
  window_sum image identity_kernel i j = get image i j.
Proof.
  unfold window_sum; simpl.
  rewrite !Nat.add_0_r.
  change (get identity_kernel 0 0) with 1%Qc.
  ring.
Qed.

(** C7: correlating with the 1x1 kernel [[1]] returns the input grid,
    cell for cell, whatever the padding argument ('valid', 'same' or any
    other string). *)
Theorem C7_identity_kernel (image : ndarray) (padding : string) :
  wf image = true ->
  convolve2d image identity_kernel padding = Ok image.
Proof.
  intros Hwf.
  rewrite convolve2d_ok; rewrite pad_image_identity;
    [|simpl; lia|simpl; lia].
  f_equal.
  transitivity (tabulate (nrows image) (ncols image) (get image));
    [|apply tabulate_get; exact Hwf].
  cbn [nrows ncols identity_kernel full].
  replace (nrows image + 1 - 1) with (nrows image) by lia.
  replace (ncols image + 1 - 1) with (ncols image) by lia.
  apply tabulate_ext; intros i j _ _; apply window_sum_identity.
Qed.

Lemma C7_identity_kernel_witness :
  convolve2d grid_3x3_255 identity_kernel "valid" = Ok grid_3x3_255
  /\ convolve2d grid_3x3_255 identity_kernel "same" = Ok grid_3x3_255.
Proof.
  split; apply C7_identity_kernel; reflexivity.
Defined.

Lemma get_lin_comb (a b : Qc) (k1 k2 : ndarray) (r c : nat) :
  r < nrows k1 -> c < ncols k1 ->
  get (lin_comb a k1 b k2) r c = (a * get k1 r c + b * get k2 r c)%Qc.
Proof.
  intros Hr Hc; unfold lin_comb; rewrite get_tabulate by assumption.
  reflexivity.
Qed.

(** The window sum is linear in the kernel. *)
Lemma window_sum_lin_comb (image k1 k2 : ndarray) (a b : Qc) (i j : nat) :
  nrows k1 = nrows k2 -> ncols k1 = ncols k2 ->
  window_sum image (lin_comb a k1 b k2) i j
  = (a * window_sum image k1 i j + b * window_sum image k2 i j)%Qc.
Proof.
  intros Hr Hc; unfold window_sum.
  rewrite <- Hr, <- Hc; cbn [nrows ncols lin_comb tabulate].
  rewrite <- big_sum_linear.
  apply big_sum_ext; intros r Hlr.
  rewrite <- big_sum_linear.
  apply big_sum_ext; intros c Hlc.
  rewrite get_lin_comb by assumption.
  ring.
Qed.

(** C8: linearity in the kernel. For kernels K1, K2 of equal shape and
    scalars a, b, either the three calls on K1, K2 and a*K1 + b*K2 all
    raise the same exception (the shape is all that decides), or they all
    return and the grid for a*K1 + b*K2 is a*out1 + b*out2, cell for cell,
    in either padding mode. *)
Theorem C8_linearity (image k1 k2 : ndarray) (a b : Qc) (padding : string) :
  nrows k1 = nrows k2 -> ncols k1 = ncols k2 ->
  (exists out1 out2,
      convolve2d image k1 padding = Ok out1
      /\ convolve2d image k2 padding = Ok out2
      /\ convolve2d image (lin_comb a k1 b k2) padding
         = Ok (lin_comb a out1 b out2))
  \/ (exists e,
        convolve2d image k1 padding = Raise e
        /\ convolve2d image k2 padding = Raise e
        /\ convolve2d image (lin_comb a k1 b k2) padding = Raise e).
Proof.
  intros Hr Hc.
  set (k := lin_comb a k1 b k2).
  assert (Hkr : nrows k = nrows k1) by reflexivity.
  assert (Hkc : ncols k = ncols k1) by reflexivity.
  pose proof (pad_image_shape_only image k1 k2 padding Hr Hc) as Hp2.
  pose proof (pad_image_shape_only image k k1 padding Hkr Hkc) as Hp.
  set (image' := pad_image image k1 padding) in *.
  destruct (Nat.le_gt_cases (nrows k1) (nrows image' + 1)) as [Hh|Hh];
    destruct (Nat.le_gt_cases (ncols k1) (ncols image' + 1)) as [Hw|Hw].
  1:{ left; do 2 eexists; split_all.
      - apply convolve2d_ok; assumption.
      - apply convolve2d_ok; rewrite <- Hp2; fold image'; lia.
      - rewrite convolve2d_ok by (rewrite Hp; fold image'; lia).
        rewrite Hp, <- Hp2; fold image'; rewrite Hkr, Hkc, <- Hr, <- Hc.
        f_equal; unfold lin_comb; cbn [nrows ncols tabulate].
        apply tabulate_ext; intros i j Hi Hj.
        rewrite !get_tabulate by assumption.
        apply window_sum_lin_comb; assumption. }
  all: right; exists ValueError_negative_dimensions; split_all;
    apply convolve2d_raise; rewrite <- ?Hp2, ?Hp; fold image'; lia.
Qed.

Lemma C8_linearity_witness :
  (exists out1 out2,
      convolve2d grid_4x4 averaging_kernel "same" = Ok out1
      /\ convolve2d grid_4x4 (full 3 3 1%Qc) "same" = Ok out2
      /\ convolve2d grid_4x4
           (lin_comb (qc 2) averaging_kernel (qc 3) (full 3 3 1%Qc)) "same"
         = Ok (lin_comb (qc 2) out1 (qc 3) out2))
  \/ (exists e,
        convolve2d grid_4x4 averaging_kernel "same" = Raise e
        /\ convolve2d grid_4x4 (full 3 3 1%Qc) "same" = Raise e
        /\ convolve2d grid_4x4
             (lin_comb (qc 2) averaging_kernel (qc 3) (full 3 3 1%Qc)) "same"
           = Raise e).
Proof.
  apply (C8_linearity grid_4x4 averaging_kernel (full 3 3 1%Qc)); reflexivity.
Defined.

(** C9: on the 3x3 grid of 255s with the 3x3 averaging kernel (all 1/9),
    'same' mode returns a 3x3 grid whose four corners are 255*4/9 and whose
    centre is 255. *)
Theorem C9_zero_padding_check :
  exists out, convolve2d grid_3x3_255 averaging_kernel "same" = Ok out
    /\ shape out = (3, 3)
    /\ get out 0 0 = (qc 255 * qc 4 / qc 9)%Qc
    /\ get out 0 2 = (qc 255 * qc 4 / qc 9)%Qc
    /\ get out 2 0 = (qc 255 * qc 4 / qc 9)%Qc
    /\ get out 2 2 = (qc 255 * qc 4 / qc 9)%Qc
    /\ get out 1 1 = qc 255.
Proof.
  eexists; split; [apply convolve2d_ok; simpl; lia|].
  split; [reflexivity|].
  split_all; apply Qc_is_canon; vm_compute; reflexivity.
Qed.

(** * Further properties of convolve2d *)

Lemma get_full (h w : nat) (v : Qc) (i j : nat) :
  i < h -> j < w -> get (full h w v) i j = v.
Proof.
  intros Hi Hj; unfold get; simpl.
  rewrite nth_repeat_lt by exact Hi.
  apply nth_repeat_lt; exact Hj.
Qed.

Lemma tabulate_const (h w : nat) (f : nat -> nat -> Qc) (v : Qc) :
  (forall i j, i < h -> j < w -> f i j = v) -> tabulate h w f = full h w v.
Proof.
  intros H; apply ndarray_ext; auto using wf_tabulate, wf_full.
  cbn [nrows ncols tabulate]; intros i j Hi Hj.
  rewrite get_tabulate, get_full by assumption; auto.
Qed.

Lemma big_sum_const_zero (n : nat) (f : nat -> Qc) :
  (forall k, k < n -> f k = 0%Qc) -> big_sum n f = 0%Qc.
Proof.
  induction n as [|n IH]; intros H; simpl; [reflexivity|].
  rewrite IH, (H n) by auto; ring.
Qed.

Lemma big_sum_scale (n : nat) (a : Qc) (f : nat -> Qc) :
  big_sum n (fun k => a * f k)%Qc = (a * big_sum n f)%Qc.
Proof.
  induction n as [|n IH]; simpl; [ring|].
  rewrite IH; ring.
Qed.



(** The sum of the cells of a well-formed array, by index. *)
Lemma np_sum_get (a : ndarray) :
  wf a = true ->
  np_sum a = big_sum (nrows a) (fun r => big_sum (ncols a) (fun c => get a r c)).
Proof.
  intros Hwf; rewrite <- (tabulate_get a Hwf) at 1.
  apply np_sum_tabulate.
Qed.

Lemma window_sum_ext (image1 image2 kernel : ndarray) (i1 j1 i2 j2 : nat) :
  (forall r c, r < nrows kernel -> c < ncols kernel ->
     get image1 (i1 + r) (j1 + c) = get image2 (i2 + r) (j2 + c)) ->
  window_sum image1 kernel i1 j1 = window_sum image2 kernel i2 j2.
Proof.
  intros H; unfold window_sum.
  apply big_sum_ext; intros r Hr; apply big_sum_ext; intros c Hc.
  rewrite H by assumption; reflexivity.
Qed.

Lemma window_sum_flat (image kernel : ndarray) (i j : nat) (v : Qc) :
  wf kernel = true ->
  (forall r c, r < nrows kernel -> c < ncols kernel ->
     get image (i + r) (j + c) = v) ->
  window_sum image kernel i j = (v * np_sum kernel)%Qc.
Proof.
  intros Hwf H; rewrite np_sum_get by exact Hwf; unfold window_sum.
  rewrite <- big_sum_scale.
  apply big_sum_ext; intros r Hr.
  rewrite <- big_sum_scale.
  apply big_sum_ext; intros c Hc.
  rewrite H by assumption; reflexivity.
Qed.

(** X1: the only exception [convolve2d] raises is numpy's ValueError for a
    negative dimension, and it raises it exactly when the image is not
    padded and the kernel exceeds it by two or more rows or columns. It
    never fails on a window (the slices always have the kernel's shape) or
    on an assignment (the indices are always in bounds), and never in
    'same' mode. *)
Theorem convolve2d_raises_iff (image kernel : ndarray) (padding : string) (e : exn) :
  convolve2d image kernel padding = Raise e
  <-> e = ValueError_negative_dimensions /\ padding <> "same"%string
      /\ (nrows image + 1 < nrows kernel \/ ncols image + 1 < ncols kernel).
Proof.
  split.
  - apply convolve2d_raise_inv.
  - intros (-> & Hp & H).
    apply convolve2d_raise; rewrite pad_image_other by exact Hp; exact H.
Qed.

(** X2: an all-zero kernel gives an all-zero response of the expected
    shape, in either mode, whenever the call returns. *)
Theorem zero_kernel_zero_response (image : ndarray) (kh kw : nat) (padding : string) :
  let kernel := full kh kw 0%Qc in
  let image' := pad_image image kernel padding in
  kh <= nrows image' + 1 -> kw <= ncols image' + 1 ->
  convolve2d image kernel padding
  = Ok (full (nrows image' + 1 - kh) (ncols image' + 1 - kw) 0%Qc).
Proof.
  intros kernel image' Hh Hw.
  rewrite convolve2d_ok by assumption.
  f_equal; apply tabulate_const; intros i j _ _.
  unfold window_sum.
  apply big_sum_const_zero; intros r Hr.
  apply big_sum_const_zero; intros c Hc.
  unfold kernel; rewrite get_full by assumption; ring.
Qed.

Lemma zero_kernel_zero_response_witness :
  convolve2d grid_4x4 (full 3 3 0%Qc) "same" = Ok (full 4 4 0%Qc)
  /\ convolve2d grid_4x4 (full 3 3 0%Qc) "valid" = Ok (full 2 2 0%Qc).
Proof.
  split.
  - apply (zero_kernel_zero_response grid_4x4 3 3 "same"); simpl; lia.
  - apply (zero_kernel_zero_response grid_4x4 3 3 "valid"); simpl; lia.
Defined.

(** X3: an output cell depends on its window only. If the (possibly
    padded) images of two calls with the same kernel agree on the Kh x Kw
    windows at (i1, j1) and (i2, j2), both calls return and the two output
    cells are equal; in particular the response on a flat window depends
    on its value and on the kernel only, not on its position or on the
    rest of the image. *)
Theorem window_determines_response (image1 image2 kernel : ndarray)
    (padding1 padding2 : string) (i1 j1 i2 j2 : nat) :
  let image1' := pad_image image1 kernel padding1 in
  let image2' := pad_image image2 kernel padding2 in
  i1 + nrows kernel <= nrows image1' -> j1 + ncols kernel <= ncols image1' ->
  i2 + nrows kernel <= nrows image2' -> j2 + ncols kernel <= ncols image2' ->
  (forall r c, r < nrows kernel -> c < ncols kernel ->
     get image1' (i1 + r) (j1 + c) = get image2' (i2 + r) (j2 + c)) ->
  exists out1 out2,
    convolve2d image1 kernel padding1 = Ok out1
    /\ convolve2d image2 kernel padding2 = Ok out2
    /\ get out1 i1 j1 = get out2 i2 j2.
Proof.
  intros image1' image2' Hi1 Hj1 Hi2 Hj2 Hsame.
  do 2 eexists; split_all.
  - apply convolve2d_ok; fold image1'; lia.
  - apply convolve2d_ok; fold image2'; lia.
  - rewrite !get_tabulate by (fold image1' image2'; lia).
    apply window_sum_ext; exact Hsame.
Qed.

Lemma window_determines_response_witness :
  exists out1 out2,
    convolve2d grid_4x4 kernel_2x3 "valid" = Ok out1
    /\ convolve2d (full 6 6 1%Qc) kernel_2x3 "same" = Ok out2
    /\ get out1 0 0 = get out2 3 2.
Proof.
  apply (window_determines_response grid_4x4 (full 6 6 1%Qc) kernel_2x3
           "valid" "same" 0 0 3 2); try (simpl; lia).
  intros r c Hr Hc; simpl in Hr, Hc.
  rewrite pad_image_same, get_np_pad by reflexivity.
  rewrite (pad_image_other grid_4x4 kernel_2x3 "valid" valid_not_same).
  unfold grid_4x4; rewrite get_full by lia.
  change (nrows kernel_2x3 / 2) with 1; change (ncols kernel_2x3 / 2) with 1.
  cbn [nrows ncols full].
  destruct (Nat.leb_spec 1 (3 + r)); [|lia].
  destruct (Nat.ltb_spec (3 + r) (1 + 6)); [|lia].
  destruct (Nat.leb_spec 1 (2 + c)); [|lia].
  destruct (Nat.ltb_spec (2 + c) (1 + 6)); [|lia].
  simpl; rewrite get_full by lia; reflexivity.
Defined.

Lemma wf_lin_comb (a b : Qc) (x y : ndarray) : wf (lin_comb a x b y) = true.
Proof. apply wf_tabulate. Qed.

(** Zero padding commutes with linear combinations, cell by cell. *)
Lemma get_pad_image_lin_comb (image1 image2 kernel : ndarray) (a b : Qc)
    (padding : string) (i j : nat) :
  wf image1 = true -> wf image2 = true ->
  nrows image1 = nrows image2 -> ncols image1 = ncols image2 ->
  i < nrows (pad_image image1 kernel padding) ->
  j < ncols (pad_image image1 kernel padding) ->
  get (pad_image (lin_comb a image1 b image2) kernel padding) i j
  = (a * get (pad_image image1 kernel padding) i j
     + b * get (pad_image image2 kernel padding) i j)%Qc.
Proof.
  intros Hwf1 Hwf2 Hr Hc Hi Hj.
  destruct (string_dec padding "same") as [->|Hp].
  - rewrite !pad_image_same in *.
    rewrite !get_np_pad by auto using wf_lin_comb.
    cbn [nrows ncols lin_comb tabulate]; rewrite <- Hr, <- Hc.
    set (ph := nrows kernel / 2); set (pw := ncols kernel / 2).
    destruct (Nat.leb_spec ph i), (Nat.ltb_spec i (ph + nrows image1)),
      (Nat.leb_spec pw j), (Nat.ltb_spec j (pw + ncols image1));
      simpl; try ring.
    apply get_lin_comb; lia.
  - rewrite !pad_image_other in * by exact Hp.
    apply get_lin_comb; assumption.
Qed.

(** X4: linearity in the image, on integer data. Take images I1, I2 of
    equal shape, a kernel and scalars a, b whose values are all integers of
    absolute value at most 1024, the kernel having at most 1024 cells (the
    notebook's black-and-white images with its Sobel, Prewitt, Laplacian
    or sharpening kernels are of this kind; on such data the float64
    program rounds nothing). Then the calls on I1, I2 and a*I1 + b*I2
    either all raise the same exception or all return, and the grid for
    a*I1 + b*I2 is a*out1 + b*out2, zero padding included. *)
Theorem image_linearity (image1 image2 kernel : ndarray) (a b : Qc) (padding : string) :
  wf image1 = true -> wf image2 = true ->
  nrows image1 = nrows image2 -> ncols image1 = ncols image2 ->
  wf kernel = true -> nrows kernel * ncols kernel <= 1024 ->
  all_cells small_int image1 = true -> all_cells small_int image2 = true ->
  all_cells small_int kernel = true ->
  small_int a = true -> small_int b = true ->
  (exists out1 out2,
      convolve2d image1 kernel padding = Ok out1
      /\ convolve2d image2 kernel padding = Ok out2
      /\ convolve2d (lin_comb a image1 b image2) kernel padding
         = Ok (lin_comb a out1 b out2))
  \/ (exists e,
        convolve2d image1 kernel padding = Raise e
        /\ convolve2d image2 kernel padding = Raise e
        /\ convolve2d (lin_comb a image1 b image2) kernel padding = Raise e).
Proof.
  intros Hwf1 Hwf2 Hr Hc _ _ _ _ _ _ _.
  set (image := lin_comb a image1 b image2).
  pose proof (fun i j => get_pad_image_lin_comb image1 image2 kernel a b padding
                           i j Hwf1 Hwf2 Hr Hc) as Hget; fold image in Hget.
  assert (Hshape : forall x, nrows x = nrows image1 -> ncols x = ncols image1 ->
            nrows (pad_image x kernel padding)
            = nrows (pad_image image1 kernel padding)
            /\ ncols (pad_image x kernel padding)
               = ncols (pad_image image1 kernel padding)).
  { intros x Hxr Hxc; unfold pad_image; simpl.
    destruct (String.eqb padding "same"); unfold np_pad; cbn [nrows ncols];
      rewrite ?Hxr, ?Hxc; auto. }
  destruct (Hshape image2 (eq_sym Hr) (eq_sym Hc)) as [Hr2 Hc2].
  destruct (Hshape image eq_refl eq_refl) as [Hr0 Hc0].
  clear Hshape.
  set (p1 := pad_image image1 kernel padding) in *.
  set (p2 := pad_image image2 kernel padding) in *.
  set (p := pad_image image kernel padding) in *.
  destruct (Nat.le_gt_cases (nrows kernel) (nrows p1 + 1)) as [Hh|Hh];
    destruct (Nat.le_gt_cases (ncols kernel) (ncols p1 + 1)) as [Hw|Hw].
  1:{ left; do 2 eexists; split_all.
      - apply convolve2d_ok; assumption.
      - apply convolve2d_ok; fold p2; lia.
      - rewrite convolve2d_ok by (fold p; lia).
        fold p p1 p2; rewrite Hr0, Hc0, Hr2, Hc2.
        f_equal; unfold lin_comb at 1; cbn [nrows ncols tabulate].
        apply tabulate_ext; intros i j Hi Hj.
        rewrite !get_tabulate by lia.
        unfold window_sum.
        rewrite <- big_sum_linear.
        apply big_sum_ext; intros r Hlr.
        rewrite <- big_sum_linear.
        apply big_sum_ext; intros c Hlc.
        rewrite Hget by lia; ring. }
  all: right; exists ValueError_negative_dimensions; split_all;
    apply convolve2d_raise; fold p p1 p2; lia.
Qed.

Lemma image_linearity_witness :
  (exists out1 out2,
      convolve2d grid_4x4 sobel_x "same" = Ok out1
      /\ convolve2d (full 4 4 (qc 7)) sobel_x "same" = Ok out2
      /\ convolve2d (lin_comb (qc 2) grid_4x4 (qc 3) (full 4 4 (qc 7)))
           sobel_x "same"
         = Ok (lin_comb (qc 2) out1 (qc 3) out2))
  \/ (exists e,
        convolve2d grid_4x4 sobel_x "same" = Raise e
        /\ convolve2d (full 4 4 (qc 7)) sobel_x "same" = Raise e
        /\ convolve2d (lin_comb (qc 2) grid_4x4 (qc 3) (full 4 4 (qc 7)))
             sobel_x "same" = Raise e).
Proof.
  apply (image_linearity grid_4x4 (full 4 4 (qc 7)) sobel_x);
    try reflexivity; simpl; lia.
Defined.

(** ** Cropping and the two padding modes *)

Lemma Forall_firstn' {A : Type} (P : A -> Prop) (n : nat) (l : list A) :
  Forall P l -> Forall P (firstn n l).
Proof.
  intros H; revert n; induction H as [|x l Hx Hl IH]; intros [|n]; simpl;
    constructor; auto.
Qed.

Lemma Forall_skipn' {A : Type} (P : A -> Prop) (n : nat) (l : list A) :
  Forall P l -> Forall P (skipn n l).
Proof.
  intros H; revert n; induction H as [|x l Hx Hl IH]; intros [|n]; simpl;
    auto.
Qed.

Lemma length_slice1 {A : Type} (lo hi : nat) (l : list A) :
  length (slice1 lo hi l) = Nat.min (hi - lo) (length l - lo).
Proof.
  unfold slice1; rewrite length_firstn, length_skipn; reflexivity.
Qed.

Lemma wf_slice (a : ndarray) (r0 r1 c0 c1 : nat) :
  wf a = true -> wf (slice a r0 r1 c0 c1) = true.
Proof.
  intros Hwf; apply wf_spec in Hwf as [Hlen Hall].
  apply wf_spec; unfold slice; cbn [nrows ncols rows]; split.
  - rewrite length_map, length_slice1, Hlen; reflexivity.
  - apply Forall_map.
    apply Forall_firstn', Forall_skipn'.
    eapply Forall_impl; [|exact Hall].
    intros r Hr; simpl in Hr; rewrite length_slice1, Hr; reflexivity.
Qed.

(** X5: for a kernel that fits in the image, the 'valid' output is the
    'same' output with Kh//2 rows cropped at the top and Kw//2 columns at
    the left (and the rest at the bottom and right):
    valid = same[ph : ph + H-Kh+1, pw : pw + W-Kw+1]. *)
Theorem valid_is_cropped_same (image kernel : ndarray) :
  wf image = true ->
  nrows kernel <= nrows image + 1 -> ncols kernel <= ncols image + 1 ->
  let pad_h := nrows kernel / 2 in
  let pad_w := ncols kernel / 2 in
  exists out_valid out_same,
    convolve2d image kernel "valid" = Ok out_valid
    /\ convolve2d image kernel "same" = Ok out_same
    /\ out_valid
       = slice out_same pad_h (pad_h + (nrows image + 1 - nrows kernel))
                        pad_w (pad_w + (ncols image + 1 - ncols kernel)).
Proof.
  intros Hwf Hh Hw pad_h pad_w.
  destruct (same_fits image kernel) as [Hsh Hsw].
  do 2 eexists; split_all.
  - apply convolve2d_unpadded_ok; auto using valid_not_same.
  - apply convolve2d_ok; assumption.
  - rewrite pad_image_same in *; fold pad_h pad_w in Hsh, Hsw |- *.
    set (padded := np_pad image pad_h pad_w) in *.
    assert (Hpr : nrows padded = pad_h + nrows image + pad_h) by reflexivity.
    assert (Hpc : ncols padded = pad_w + ncols image + pad_w) by reflexivity.
    apply ndarray_ext; auto using wf_tabulate, wf_slice.
    + unfold slice; cbn [nrows ncols tabulate]; lia.
    + unfold slice; cbn [nrows ncols tabulate]; lia.
    + cbn [nrows ncols tabulate]; intros i j Hi Hj.
      rewrite get_slice by lia.
      rewrite !get_tabulate by lia.
      apply window_sum_ext; intros r c Hr Hc.
      unfold padded; rewrite get_np_pad by exact Hwf.
      destruct (Nat.leb_spec pad_h (pad_h + i + r)); [|lia].
      destruct (Nat.ltb_spec (pad_h + i + r) (pad_h + nrows image)); [|lia].
      destruct (Nat.leb_spec pad_w (pad_w + j + c)); [|lia].
      destruct (Nat.ltb_spec (pad_w + j + c) (pad_w + ncols image)); [|lia].
      simpl; f_equal; lia.
Qed.

Lemma valid_is_cropped_same_witness :
  exists out_valid out_same,
    convolve2d grid_4x4 averaging_kernel "valid" = Ok out_valid
    /\ convolve2d grid_4x4 averaging_kernel "same" = Ok out_same
    /\ out_valid = slice out_same 1 (1 + 2) 1 (1 + 2).
Proof.
  apply (valid_is_cropped_same grid_4x4 averaging_kernel);
    try reflexivity; simpl; lia.
Defined.

(** X6: cropping commutes with 'valid' correlation:
    convolve2d(image[r0:r1, c0:c1], K) = convolve2d(image, K)[r0:r1-Kh+1, c0:c1-Kw+1]
    for a crop 0 <= r0 <= r1 <= H, 0 <= c0 <= c1 <= W with
    Kh <= r1-r0+1 and Kw <= c1-c0+1. *)
Theorem crop_commutes_with_valid (image kernel : ndarray) (r0 r1 c0 c1 : nat) :
  wf image = true ->
  r0 <= r1 <= nrows image -> c0 <= c1 <= ncols image ->
  r0 + nrows kernel <= r1 + 1 -> c0 + ncols kernel <= c1 + 1 ->
  exists out,
    convolve2d image kernel "valid" = Ok out
    /\ convolve2d (slice image r0 r1 c0 c1) kernel "valid"
       = Ok (slice out r0 (r1 + 1 - nrows kernel) c0 (c1 + 1 - ncols kernel)).
Proof.
  intros Hwf Hr1 Hc1 Hkh Hkw.
  assert (Hsr : nrows (slice image r0 r1 c0 c1) = r1 - r0)
    by (unfold slice; cbn [nrows]; lia).
  assert (Hsc : ncols (slice image r0 r1 c0 c1) = c1 - c0)
    by (unfold slice; cbn [ncols]; lia).
  eexists; split.
  - apply convolve2d_unpadded_ok; auto using valid_not_same; lia.
  - rewrite convolve2d_unpadded_ok by (auto using valid_not_same; lia).
    rewrite Hsr, Hsc.
    f_equal; apply ndarray_ext; auto using wf_tabulate, wf_slice.
    + unfold slice; cbn [nrows ncols tabulate]; lia.
    + unfold slice; cbn [nrows ncols tabulate]; lia.
    + cbn [nrows ncols tabulate]; intros i j Hi Hj.
      rewrite get_slice by lia.
      rewrite !get_tabulate by lia.
      apply window_sum_ext; intros r c Hr Hc.
      rewrite get_slice by lia.
      f_equal; lia.
Qed.

Lemma crop_commutes_with_valid_witness :
  exists out,
    convolve2d grid_4x4 kernel_2x3 "valid" = Ok out
    /\ convolve2d (slice grid_4x4 1 4 0 3) kernel_2x3 "valid"
       = Ok (slice out 1 (4 + 1 - 2) 0 (3 + 1 - 3)).
Proof.
  apply (crop_commutes_with_valid grid_4x4 kernel_2x3 1 4 0 3);
    try reflexivity; simpl; lia.
Defined.

(** ** Transposition *)







(** ** Order: smoothing kernels keep the range of the image *)

Lemma Qcleb_le (x y : Qc) : Qcleb x y = true <-> (x <= y)%Qc.
Proof.
  unfold Qcleb; rewrite Qcle_alt.
  destruct (x ?= y)%Qc; split; intros H; try reflexivity; try discriminate.
  exfalso; apply H; reflexivity.
Qed.

Lemma between_spec (lo hi x : Qc) :
  Qcleb lo x && Qcleb x hi = true <-> (lo <= x <= hi)%Qc.
Proof.
  rewrite andb_true_iff, !Qcleb_le; reflexivity.
Qed.

Lemma all_cells_get (p : Qc -> bool) (a : ndarray) (i j : nat) :
  wf a = true -> all_cells p a = true ->
  i < nrows a -> j < ncols a -> p (get a i j) = true.
Proof.
  intros Hwf Hall Hi Hj.
  pose proof (wf_row_length a i Hwf Hi) as Hrow.
  apply wf_spec in Hwf as [Hlen _].
  unfold all_cells in Hall; rewrite forallb_forall in Hall.
  specialize (Hall (nth i (rows a) []) ltac:(apply nth_In; lia)).
  rewrite forallb_forall in Hall.
  apply Hall, nth_In; lia.
Qed.

Lemma all_cells_tabulate (p : Qc -> bool) (h w : nat) (f : nat -> nat -> Qc) :
  (forall i j, i < h -> j < w -> p (f i j) = true) ->
  all_cells p (tabulate h w f) = true.
Proof.
  intros H; unfold all_cells, tabulate; cbn [rows].
  apply forallb_forall; intros r Hr.
  apply in_map_iff in Hr as [i [<- Hi]]; apply in_seq in Hi.
  apply forallb_forall; intros x Hx.
  apply in_map_iff in Hx as [j [<- Hj]]; apply in_seq in Hj.
  apply H; lia.
Qed.

Lemma big_sum_le (n : nat) (f g : nat -> Qc) :
  (forall k, k < n -> (f k <= g k)%Qc) -> (big_sum n f <= big_sum n g)%Qc.
Proof.
  induction n as [|n IH]; intros H; simpl; [apply Qcle_refl|].
  apply Qcplus_le_compat; auto.
Qed.

(** A non-negative kernel of total weight 1 averages: the window sum stays
    between the bounds of the window. *)
Lemma window_sum_between (image kernel : ndarray) (i j : nat) (lo hi : Qc) :
  wf kernel = true ->
  np_sum kernel = 1%Qc ->
  (forall r c, r < nrows kernel -> c < ncols kernel ->
     (0 <= get kernel r c)%Qc) ->
  (forall r c, r < nrows kernel -> c < ncols kernel ->
     (lo <= get image (i + r) (j + c) <= hi)%Qc) ->
  (lo <= window_sum image kernel i j <= hi)%Qc.
Proof.
  intros Hwf Hsum Hpos Hin.
  rewrite <- (Qcmult_1_r lo), <- (Qcmult_1_r hi), <- Hsum.
  rewrite np_sum_get by exact Hwf.
  rewrite <- !big_sum_scale; unfold window_sum.
  split; apply big_sum_le; intros r Hr; rewrite <- big_sum_scale;
    apply big_sum_le; intros c Hc;
    apply Qcmult_le_compat_r; auto; apply Hin; assumption.
Qed.

Lemma pad_image_between (image kernel : ndarray) (padding : string)
    (hi : Qc) (i j : nat) :
  wf image = true -> (0 <= hi)%Qc ->
  all_cells (fun x => Qcleb 0 x && Qcleb x hi) image = true ->
  i < nrows (pad_image image kernel padding) ->
  j < ncols (pad_image image kernel padding) ->
  (0 <= get (pad_image image kernel padding) i j <= hi)%Qc.
Proof.
  intros Hwf Hhi Hall Hi Hj.
  destruct (string_dec padding "same") as [->|Hp].
  - rewrite pad_image_same, get_np_pad by exact Hwf.
    set (ph := nrows kernel / 2); set (pw := ncols kernel / 2).
    destruct (Nat.leb_spec ph i), (Nat.ltb_spec i (ph + nrows image)),
      (Nat.leb_spec pw j), (Nat.ltb_spec j (pw + ncols image));
      simpl; try (split; [apply Qcle_refl|exact Hhi]).
    apply between_spec.
    apply (all_cells_get (fun x => Qcleb 0 x && Qcleb x hi) image); auto; lia.
  - rewrite pad_image_other in * by exact Hp.
    apply between_spec.
    apply (all_cells_get (fun x => Qcleb 0 x && Qcleb x hi) image); auto.
Qed.

Lemma smoothing_between (image kernel : ndarray) (padding : string) (hi : Qc) :
  let image' := pad_image image kernel padding in
  wf image = true -> wf kernel = true ->
  Qcleb 0 hi = true ->
  all_cells (fun x => Qcleb 0 x && Qcleb x hi) image = true ->
  all_cells (Qcleb 0) kernel = true ->
  np_sum kernel = 1%Qc ->
  all_cells (fun x => Qcleb 0 x && Qcleb x hi)
    (tabulate (nrows image' + 1 - nrows kernel) (ncols image' + 1 - ncols kernel)
       (window_sum image' kernel)) = true.
Proof.
  intros image' Hwf Hwfk Hhi Himg Hker Hsum; subst image'.
  apply all_cells_tabulate; intros i j Hi Hj.
  apply between_spec, window_sum_between; auto.
  - intros r c Hr Hc; apply Qcleb_le.
    apply (all_cells_get (Qcleb 0) kernel); assumption.
  - intros r c Hr Hc.
    apply pad_image_between; auto; [apply Qcleb_le; exact Hhi|lia|lia].
Qed.




Lemma averaging_kernel_sum : np_sum averaging_kernel = 1%Qc.
Proof. apply Qc_is_canon; vm_compute; reflexivity. Qed.

Lemma gaussian_blur_sum : np_sum gaussian_blur = 1%Qc.
Proof. apply Qc_is_canon; vm_compute; reflexivity. Qed.


(** X9: the two smoothing filters of the notebook, the 3x3 averaging
    kernel and the 5x5 "Gaussian Blur" box kernel, applied in 'same' mode
    to an image with cells in [0, 255], return an image with cells in
    [0, 255]. *)
Theorem notebook_blurs_keep_pixel_range (image kernel : ndarray) :
  kernel = averaging_kernel \/ kernel = gaussian_blur ->
  wf image = true ->
  all_cells (fun x => Qcleb 0 x && Qcleb x (qc 255)) image = true ->
  exists out, convolve2d image kernel "same" = Ok out
    /\ shape out = shape image
    /\ all_cells (fun x => Qcleb 0 x && Qcleb x (qc 255)) out = true.
Proof.
  intros Hk Hwf Himg.
  destruct (same_fits image kernel) as [Hh Hw].
  eexists; split; [apply convolve2d_ok; assumption|]; split.
  - unfold shape; cbn [nrows ncols tabulate].
    rewrite same_output_rows, same_output_cols.
    destruct Hk as [-> | ->]; simpl; f_equal; lia.
  - apply smoothing_between; auto;
      destruct Hk as [-> | ->];
      reflexivity || exact averaging_kernel_sum || exact gaussian_blur_sum.
Qed.

Lemma notebook_blurs_keep_pixel_range_witness :
  exists out, convolve2d grid_3x3_255 gaussian_blur "same" = Ok out
    /\ shape out = shape grid_3x3_255
    /\ all_cells (fun x => Qcleb 0 x && Qcleb x (qc 255)) out = true.
Proof.
  apply (notebook_blurs_keep_pixel_range grid_3x3_255 gaussian_blur);
    [right; reflexivity|reflexivity|reflexivity].
Defined.

(** ** Flat regions and the kernels of the notebook *)

(** In 'same' mode, at a pixel whose whole neighbourhood lies inside the
    image and is constant, the response is the constant times the sum of
    the kernel. *)
Lemma same_interior_flat (image kernel : ndarray) (i j : nat) (v : Qc) :
  wf image = true -> wf kernel = true ->
  nrows kernel / 2 <= i -> i + nrows kernel <= nrows kernel / 2 + nrows image ->
  ncols kernel / 2 <= j -> j + ncols kernel <= ncols kernel / 2 + ncols image ->
  (forall r c, r < nrows kernel -> c < ncols kernel ->
     get image (i + r - nrows kernel / 2) (j + c - ncols kernel / 2) = v) ->
  exists out, convolve2d image kernel "same" = Ok out
    /\ get out i j = (v * np_sum kernel)%Qc.
Proof.
  intros Hwf Hwfk Hi1 Hi2 Hj1 Hj2 Hflat.
  destruct (same_fits image kernel) as [Hh Hw].
  eexists; split; [apply convolve2d_ok; assumption|].
  rewrite pad_image_same in *.
  set (ph := nrows kernel / 2) in *; set (pw := ncols kernel / 2) in *.
  assert (Hpr : nrows (np_pad image ph pw) = ph + nrows image + ph) by reflexivity.
  assert (Hpc : ncols (np_pad image ph pw) = pw + ncols image + pw) by reflexivity.
  rewrite get_tabulate by lia.
  apply window_sum_flat; [exact Hwfk|].
  intros r c Hr Hc; rewrite get_np_pad by exact Hwf.
  destruct (Nat.leb_spec ph (i + r)); [|lia].
  destruct (Nat.ltb_spec (i + r) (ph + nrows image)); [|lia].
  destruct (Nat.leb_spec pw (j + c)); [|lia].
  destruct (Nat.ltb_spec (j + c) (pw + ncols image)); [|lia].
  simpl; apply Hflat; assumption.
Qed.

Lemma zero_sum_kernels (kernel : ndarray) :
  In kernel [sobel_x; sobel_y; prewitt_x; prewitt_y; laplacian] ->
  wf kernel = true /\ shape kernel = (3, 3) /\ np_sum kernel = 0%Qc.
Proof.
  intros Hin; simpl in Hin.
  repeat (destruct Hin as [<-|Hin];
          [split_all; try reflexivity; apply Qc_is_canon; vm_compute; reflexivity|]).
  contradiction.
Qed.

Lemma sharpening_sum : np_sum sharpening = 1%Qc.
Proof. apply Qc_is_canon; vm_compute; reflexivity. Qed.

(** X10: the derivative kernels of the notebook (Sobel X and Y, Prewitt X
    and Y, Laplacian) have integer weights that sum to 0. In 'same' mode
    they respond with 0 at every pixel whose 3x3 neighbourhood lies inside
    the image and is constant at an integer level v, |v| <= 1024 (such as
    the 0 and 255 of the test images): flat regions are erased, only
    edges remain. *)
Theorem derivative_kernels_vanish_on_flat (image kernel : ndarray) (i j : nat) (v : Qc) :
  In kernel [sobel_x; sobel_y; prewitt_x; prewitt_y; laplacian] ->
  wf image = true -> small_int v = true ->
  1 <= i -> i + 2 <= nrows image -> 1 <= j -> j + 2 <= ncols image ->
  (forall r c, r < 3 -> c < 3 -> get image (i + r - 1) (j + c - 1) = v) ->
  exists out, convolve2d image kernel "same" = Ok out /\ get out i j = 0%Qc.
Proof.
  intros Hin Hwf _ Hi1 Hi2 Hj1 Hj2 Hflat.
  destruct (zero_sum_kernels kernel Hin) as (Hwfk & Hshape & Hsum).
  injection Hshape as Hkr Hkc.
  destruct (same_interior_flat image kernel i j v) as (out & Hout & Hget);
    rewrite ?Hkr, ?Hkc; auto; try (simpl; lia).
  exists out; split; [exact Hout|].
  rewrite Hget, Hsum; ring.
Qed.

Lemma derivative_kernels_vanish_on_flat_witness :
  exists out, convolve2d grid_4x4 laplacian "same" = Ok out /\ get out 1 2 = 0%Qc.
Proof.
  apply (derivative_kernels_vanish_on_flat grid_4x4 laplacian 1 2 1%Qc);
    try reflexivity; try (simpl; lia).
  - simpl; auto 6.
  - intros r c Hr Hc; apply get_full; lia.
Defined.

(** X11: the sharpening kernel has integer weights that sum to 1. In
    'same' mode it returns the value of the image at every pixel whose 3x3
    neighbourhood lies inside the image and is constant at an integer
    level v, |v| <= 1024: flat regions are left as they are. *)
Theorem sharpening_preserves_flat (image : ndarray) (i j : nat) (v : Qc) :
  wf image = true -> small_int v = true ->
  1 <= i -> i + 2 <= nrows image -> 1 <= j -> j + 2 <= ncols image ->
  (forall r c, r < 3 -> c < 3 -> get image (i + r - 1) (j + c - 1) = v) ->
  exists out, convolve2d image sharpening "same" = Ok out /\ get out i j = v.
Proof.
  intros Hwf _ Hi1 Hi2 Hj1 Hj2 Hflat.
  destruct (same_interior_flat image sharpening i j v) as (out & Hout & Hget);
    auto; try reflexivity; try (simpl; lia).
  exists out; split; [exact Hout|].
  rewrite Hget, sharpening_sum; ring.
Qed.

Lemma sharpening_preserves_flat_witness :
  exists out, convolve2d (full 6 6 (qc 7)) sharpening "same" = Ok out
    /\ get out 2 3 = qc 7.
Proof.
  apply (sharpening_preserves_flat (full 6 6 (qc 7)) 2 3 (qc 7));
    try reflexivity; try (simpl; lia).
  intros r c Hr Hc; apply get_full; lia.
Defined.

(** * apply_sobel_filters *)

Lemma np_map_tabulate (f : Qc -> Qc) (h w : nat) (g : nat -> nat -> Qc) :
  np_map f (tabulate h w g) = tabulate h w (fun i j => f (g i j)).
Proof.
  unfold np_map, tabulate; cbn [nrows ncols rows]; f_equal.
  rewrite map_map; apply map_ext; intros i.
  apply map_map.
Qed.

Lemma wf_np_map (f : Qc -> Qc) (a : ndarray) : wf a = true -> wf (np_map f a) = true.
Proof.
  intros Hwf; rewrite <- (tabulate_get a Hwf), np_map_tabulate.
  apply wf_tabulate.
Qed.

Lemma get_np_map (f : Qc -> Qc) (a : ndarray) (i j : nat) :
  wf a = true -> i < nrows a -> j < ncols a ->
  get (np_map f a) i j = f (get a i j).
Proof.
  intros Hwf Hi Hj; rewrite <- (tabulate_get a Hwf) at 1.
  rewrite np_map_tabulate, get_tabulate by assumption; reflexivity.
Qed.

(** On two arrays of the same shape nothing is broadcast. *)
Lemma np_binop_same_shape (f : Qc -> Qc -> Qc) (a b : ndarray) :
  nrows a = nrows b -> ncols a = ncols b ->
  np_binop f a b
  = Ok (tabulate (nrows a) (ncols a) (fun i j => f (get a i j) (get b i j))).
Proof.
  intros Hr Hc; unfold np_binop; rewrite <- Hr, <- Hc, !broadcast_dim_same.
  f_equal; apply tabulate_ext; intros i j Hi Hj.
  rewrite !bidx_lt by assumption; reflexivity.
Qed.

Lemma odd_kernel_same_shape (image kernel : ndarray) :
  Nat.odd (nrows kernel) = true -> Nat.odd (ncols kernel) = true ->
  nrows (pad_image image kernel "same") + 1 - nrows kernel = nrows image
  /\ ncols (pad_image image kernel "same") + 1 - ncols kernel = ncols image.
Proof.
  intros Hoh How; rewrite same_output_rows, same_output_cols.
  unfold Nat.odd in Hoh, How.
  apply negb_true_iff in Hoh, How; rewrite Hoh, How; lia.
Qed.

(** In 'same' mode an odd-sized kernel gives the table of window sums over
    the cells of the image. *)
Lemma convolve2d_same_odd (image kernel : ndarray) :
  Nat.odd (nrows kernel) = true -> Nat.odd (ncols kernel) = true ->
  convolve2d image kernel "same"
  = Ok (tabulate (nrows image) (ncols image)
          (window_sum (pad_image image kernel "same") kernel)).
Proof.
  intros Hoh How.
  destruct (same_fits image kernel) as [Hh Hw].
  destruct (odd_kernel_same_shape image kernel Hoh How) as [Hr Hc].
  rewrite convolve2d_ok by assumption.
  rewrite Hr, Hc; reflexivity.
Qed.

Section SobelProperties.

Variable sqrt_cell : Qc -> Qc.

(** Closed form of the three results. *)
Lemma apply_sobel_filters_eq (image : ndarray) :
  let grad_x := tabulate (nrows image) (ncols image)
                  (window_sum (pad_image image sobel_x "same") sobel_x) in
  let grad_y := tabulate (nrows image) (ncols image)
                  (window_sum (pad_image image sobel_y "same") sobel_y) in
  apply_sobel_filters sqrt_cell image
  = Ok (grad_x, grad_y,
        tabulate (nrows image) (ncols image) (fun i j =>
          sqrt_cell (get grad_x i j * get grad_x i j
                     + get grad_y i j * get grad_y i j)%Qc)).
Proof.
  intros grad_x grad_y; unfold apply_sobel_filters.
  rewrite !convolve2d_same_odd by reflexivity; cbn [bind].
  fold grad_x grad_y.
  unfold np_add; rewrite np_binop_same_shape by reflexivity; cbn [bind].
  unfold np_sqrt; rewrite np_map_tabulate.
  do 2 f_equal.
  cbn [nrows ncols np_square np_map]; fold (np_square grad_x) (np_square grad_y).
  apply tabulate_ext; intros i j Hi Hj.
  unfold np_square; rewrite !get_np_map by (assumption || apply wf_tabulate).
  reflexivity.
Qed.

(** X12: [apply_sobel_filters] never raises. Its first two results are the
    'same'-mode responses to sobel_x and sobel_y, all three results have
    the shape of the image, and each cell of the third is the square root
    of grad_x^2 + grad_y^2 at that cell. *)
Theorem apply_sobel_filters_spec (image : ndarray) :
  exists grad_x grad_y grad_magnitude,
    apply_sobel_filters sqrt_cell image = Ok (grad_x, grad_y, grad_magnitude)
    /\ convolve2d image sobel_x "same" = Ok grad_x
    /\ convolve2d image sobel_y "same" = Ok grad_y
    /\ shape grad_x = shape image /\ shape grad_y = shape image
    /\ shape grad_magnitude = shape image
    /\ wf grad_x = true /\ wf grad_y = true /\ wf grad_magnitude = true
    /\ forall i j, i < nrows image -> j < ncols image ->
         get grad_magnitude i j
         = sqrt_cell (get grad_x i j * get grad_x i j
                      + get grad_y i j * get grad_y i j)%Qc.
Proof.
  do 3 eexists; split; [apply apply_sobel_filters_eq|].
  split_all; try reflexivity; try apply wf_tabulate;
    try (apply convolve2d_same_odd; reflexivity).
  intros i j Hi Hj; rewrite (get_tabulate _ _ _ i j Hi Hj); reflexivity.
Qed.




End SobelProperties.


(** * visualize_filter *)

Lemma Qcleb_false_lt (x y : Qc) : Qcleb x y = false -> (y < x)%Qc.
Proof.
  intros H; apply Qcnot_le_lt; intros Hle.
  apply Qcleb_le in Hle; congruence.
Qed.

Lemma Qcmax_le_l (x y : Qc) : (x <= Qcmax x y)%Qc.
Proof.
  unfold Qcmax; destruct (Qcleb x y) eqn:H.
  - apply Qcleb_le; exact H.
  - apply Qcle_refl.
Qed.

Lemma Qcmax_le_r (x y : Qc) : (y <= Qcmax x y)%Qc.
Proof.
  unfold Qcmax; destruct (Qcleb x y) eqn:H.
  - apply Qcle_refl.
  - apply Qclt_le_weak, Qcleb_false_lt; exact H.
Qed.

Lemma Qcmax_cases (x y : Qc) : Qcmax x y = x \/ Qcmax x y = y.
Proof. unfold Qcmax; destruct (Qcleb x y); auto. Qed.

Lemma Qcmin_le_r (x y : Qc) : (Qcmin x y <= y)%Qc.
Proof.
  unfold Qcmin; destruct (Qcleb x y) eqn:H.
  - apply Qcleb_le; exact H.
  - apply Qcle_refl.
Qed.

Lemma Qcmax_plus_Qcmin (x y : Qc) : (Qcmax x y + Qcmin x y = x + y)%Qc.
Proof. unfold Qcmax, Qcmin; destruct (Qcleb x y); ring. Qed.

Lemma Qcmax_or_Qcmin_0 (x : Qc) : Qcmax x 0%Qc = 0%Qc \/ Qcmin x 0%Qc = 0%Qc.
Proof. unfold Qcmax, Qcmin; destruct (Qcleb x 0%Qc); auto. Qed.

Lemma Qcabs_bounds (x : Qc) : (- Qcabs x <= x <= Qcabs x)%Qc.
Proof.
  unfold Qcabs; destruct (Qcleb 0 x) eqn:H.
  - apply Qcleb_le in H; split; [|apply Qcle_refl].
    apply Qcle_trans with 0%Qc; [|exact H].
    apply Qcopp_le_compat in H; exact H.
  - apply Qcleb_false_lt, Qclt_le_weak in H.
    rewrite Qcopp_involutive; split; [apply Qcle_refl|].
    apply Qcle_trans with 0%Qc; [exact H|].
    apply Qcopp_le_compat in H; exact H.
Qed.

Lemma Qcabs_cases (x : Qc) : x = Qcabs x \/ x = (- Qcabs x)%Qc.
Proof.
  unfold Qcabs; destruct (Qcleb 0 x); [left; reflexivity|right].
  symmetry; apply Qcopp_involutive.
Qed.

Lemma fold_Qcmax_ge (l : list Qc) (x : Qc) :
  (x <= fold_left Qcmax l x)%Qc
  /\ forall y, In y l -> (y <= fold_left Qcmax l x)%Qc.
Proof.
  revert x; induction l as [|z l IH]; intros x; simpl.
  - split; [apply Qcle_refl|contradiction].
  - destruct (IH (Qcmax x z)) as [H1 H2]; split.
    + eapply Qcle_trans; [apply Qcmax_le_l|exact H1].
    + intros y [<-|Hy]; [|auto].
      eapply Qcle_trans; [apply Qcmax_le_r|exact H1].
Qed.

Lemma fold_Qcmax_in (l : list Qc) (x : Qc) : In (fold_left Qcmax l x) (x :: l).
Proof.
  revert x; induction l as [|z l IH]; intros x; simpl; [auto|].
  destruct (IH (Qcmax x z)) as [H|H]; [|auto].
  rewrite <- H; destruct (Qcmax_cases x z) as [-> | ->]; auto.
Qed.

(** The cells of a well-formed array are the members of its rows. *)
Lemma in_cells (a : ndarray) (x : Qc) :
  wf a = true ->
  In x (concat (rows a))
  <-> exists i j, i < nrows a /\ j < ncols a /\ get a i j = x.
Proof.
  intros Hwf; pose proof (wf_row_length a) as Hrow.
  pose proof Hwf as Hwf'; apply wf_spec in Hwf' as [Hlen _].
  rewrite in_concat; split.
  - intros (r & Hr & Hx).
    apply (In_nth _ _ []) in Hr as (i & Hi & <-).
    apply (In_nth _ _ 0%Qc) in Hx as (j & Hj & <-).
    rewrite Hrow in Hj by (auto; lia).
    exists i, j; split_all; auto; lia.
  - intros (i & j & Hi & Hj & <-).
    exists (nth i (rows a) []); split; apply nth_In; [lia|].
    rewrite Hrow; auto.
Qed.

Lemma np_max_none (a : ndarray) :
  wf a = true -> (np_max a = None <-> nrows a = 0 \/ ncols a = 0).
Proof.
  intros Hwf; unfold np_max.
  pose proof (in_cells a) as Hin.
  destruct (concat (rows a)) as [|x l] eqn:Hc; split; intros H; auto;
    try discriminate.
  - destruct (Nat.eq_dec (nrows a) 0) as [|Hr]; [auto|].
    destruct (Nat.eq_dec (ncols a) 0) as [|Hw]; [auto|].
    exfalso; apply (proj2 (Hin (get a 0 0) Hwf)).
    exists 0, 0; split_all; auto; lia.
  - destruct (proj1 (Hin x Hwf) (or_introl eq_refl)) as (i & j & Hi & Hj & _).
    lia.
Qed.

Lemma np_max_some (a : ndarray) (m : Qc) :
  wf a = true -> np_max a = Some m ->
  (forall i j, i < nrows a -> j < ncols a -> (get a i j <= m)%Qc)
  /\ exists i j, i < nrows a /\ j < ncols a /\ get a i j = m.
Proof.
  intros Hwf; unfold np_max.
  pose proof (in_cells a) as Hin.
  destruct (concat (rows a)) as [|x l] eqn:Hc; [discriminate|].
  intros [= <-]; split.
  - intros i j Hi Hj.
    destruct (fold_Qcmax_ge l x) as [H1 H2].
    destruct (proj2 (Hin (get a i j) Hwf)) as [<-|Hl]; eauto.
  - apply Hin; [exact Hwf|apply fold_Qcmax_in].
Qed.

(** X14: for a kernel with at least one cell, [visualize_filter] shows the
    kernel, its positive part and its negative part. The two parts have
    the shape of the kernel, add up to it cell by cell, the positive part
    is >= 0, the negative part is <= 0, and at each cell one of them is 0. *)
Theorem visualize_filter_parts (kernel : ndarray) :
  wf kernel = true -> 1 <= nrows kernel -> 1 <= ncols kernel ->
  exists limits positive negative,
    visualize_filter kernel
    = Some [mk_imshow (0, 0) kernel (Some limits);
            mk_imshow (0, 1) positive None;
            mk_imshow (0, 2) negative None]
    /\ shape positive = shape kernel /\ shape negative = shape kernel
    /\ forall i j, i < nrows kernel -> j < ncols kernel ->
         (get positive i j + get negative i j = get kernel i j)%Qc
         /\ (0 <= get positive i j)%Qc /\ (get negative i j <= 0)%Qc
         /\ (get positive i j = 0%Qc \/ get negative i j = 0%Qc).
Proof.
  intros Hwf Hr Hc; unfold visualize_filter.
  destruct (np_max (np_abs kernel)) as [m|] eqn:Hm.
  2:{ apply np_max_none in Hm; [|apply wf_np_map; exact Hwf].
      cbn [nrows ncols np_abs np_map] in Hm; lia. }
  do 3 eexists; split; [reflexivity|].
  split_all; try reflexivity.
  intros i j Hi Hj; rewrite !get_np_map by assumption.
  split_all.
  - rewrite Qcmax_plus_Qcmin; ring.
  - apply Qcmax_le_r.
  - apply Qcmin_le_r.
  - apply Qcmax_or_Qcmin_0.
Qed.

Lemma visualize_filter_parts_witness :
  exists limits positive negative,
    visualize_filter sobel_x
    = Some [mk_imshow (0, 0) sobel_x (Some limits);
            mk_imshow (0, 1) positive None;
            mk_imshow (0, 2) negative None]
    /\ shape positive = shape sobel_x /\ shape negative = shape sobel_x
    /\ forall i j, i < nrows sobel_x -> j < ncols sobel_x ->
         (get positive i j + get negative i j = get sobel_x i j)%Qc
         /\ (0 <= get positive i j)%Qc /\ (get negative i j <= 0)%Qc
         /\ (get positive i j = 0%Qc \/ get negative i j = 0%Qc).
Proof.
  apply (visualize_filter_parts sobel_x); try reflexivity; simpl; lia.
Defined.

(** X15: [visualize_filter] fails (ValueError of [.max()]) exactly on a
    kernel without cells. Otherwise the colour scale of the first panel is
    symmetric, [-m, m], every cell of the kernel lies within it, and a cell
    attains m or -m. *)
Theorem visualize_filter_color_scale (kernel : ndarray) :
  wf kernel = true ->
  (visualize_filter kernel = None <-> nrows kernel = 0 \/ ncols kernel = 0)
  /\ forall calls, visualize_filter kernel = Some calls ->
       exists m rest,
         calls = mk_imshow (0, 0) kernel (Some ((- m)%Qc, m)) :: rest
         /\ (forall i j, i < nrows kernel -> j < ncols kernel ->
               (- m <= get kernel i j <= m)%Qc)
         /\ exists i j, i < nrows kernel /\ j < ncols kernel
              /\ (get kernel i j = m \/ get kernel i j = (- m)%Qc).
Proof.
  intros Hwf.
  pose proof (wf_np_map Qcabs kernel Hwf) as Hwfa; fold (np_abs kernel) in Hwfa.
  pose proof (np_max_none (np_abs kernel) Hwfa) as Hnone.
  cbn [nrows ncols np_abs np_map] in Hnone.
  unfold visualize_filter.
  destruct (np_max (np_abs kernel)) as [m|] eqn:Hm.
  - split.
    + split; [discriminate|]; intros H; apply Hnone in H; discriminate.
    + intros calls [= <-].
      destruct (np_max_some _ _ Hwfa Hm) as [Hge (i & j & Hi & Hj & Hat)].
      cbn [nrows ncols np_abs np_map] in Hge, Hi, Hj.
      do 2 eexists; split; [reflexivity|]; split.
      * intros i' j' Hi' Hj'.
        specialize (Hge i' j' Hi' Hj').
        unfold np_abs in Hge; rewrite get_np_map in Hge by assumption.
        destruct (Qcabs_bounds (get kernel i' j')) as [Hlo Hhi]; split.
        -- eapply Qcle_trans; [apply Qcopp_le_compat; exact Hge|exact Hlo].
        -- eapply Qcle_trans; [exact Hhi|exact Hge].
      * exists i, j; split_all; auto.
        unfold np_abs in Hat; rewrite get_np_map in Hat by assumption.
        rewrite <- Hat; apply Qcabs_cases.
  - split; [|discriminate].
    split; [intros _; apply Hnone; reflexivity|reflexivity].
Qed.

Lemma visualize_filter_color_scale_witness :
  (visualize_filter sobel_x = None
   <-> nrows sobel_x = 0 \/ ncols sobel_x = 0)
  /\ forall calls, visualize_filter sobel_x = Some calls ->
       exists m rest,
         calls = mk_imshow (0, 0) sobel_x (Some ((- m)%Qc, m)) :: rest
         /\ (forall i j, i < nrows sobel_x -> j < ncols sobel_x ->
               (- m <= get sobel_x i j <= m)%Qc)
         /\ exists i j, i < nrows sobel_x /\ j < ncols sobel_x
              /\ (get sobel_x i j = m
                  \/ get sobel_x i j = (- m)%Qc).
Proof.
  apply (visualize_filter_color_scale sobel_x); reflexivity.
Defined.

(** * visualize_corner_detection *)

Lemma convolve2d_same_response (img kernel : ndarray) :
  convolve2d img kernel "same" = Ok (same_response img kernel).
Proof.
  destruct (same_fits img kernel) as [Hh Hw].
  apply convolve2d_ok; assumption.
Qed.



Lemma corner_panels_four (img k1 k2 k3 k4 : ndarray) :
  corner_panels img 0 [k1; k2; k3; k4]
  = Ok [mk_imshow (0, 1) (same_response img k1) None;
        mk_imshow (0, 2) (same_response img k2) None;
        mk_imshow (1, 0) (same_response img k3) None;
        mk_imshow (1, 1) (same_response img k4) None].
Proof.
  cbn [corner_panels]; rewrite !convolve2d_same_response; reflexivity.
Qed.



Lemma same_response_rows (img kernel : ndarray) :
  nrows (same_response img kernel)
  = nrows img + (if Nat.even (nrows kernel) then 1 else 0).
Proof.
  unfold same_response; cbn [nrows ncols tabulate]; apply same_output_rows.
Qed.

Lemma broadcast_dim_succ (n : nat) : 2 <= n -> broadcast_dim n (n + 1) = None.
Proof.
  intros Hn; unfold broadcast_dim.
  destruct (Nat.eqb_spec n (n + 1)); [lia|].
  destruct (Nat.eqb_spec n 1); [lia|].
  destruct (Nat.eqb_spec (n + 1) 1); [lia|reflexivity].
Qed.

(** The second loop fails as soon as a kernel of even height comes up: its
    response has one row more than the accumulator. *)
Lemma combine_corners_loop_even (img : ndarray) (ks : list ndarray) (acc : ndarray) :
  2 <= nrows img -> nrows acc = nrows img ->
  existsb (fun k => Nat.even (nrows k)) ks = true ->
  for_each ks (fun filter_kernel all_corners =>
    result <- convolve2d img filter_kernel "same" ;;
    np_maximum all_corners result) acc = Raise ValueError_broadcast.
Proof.
  intros HH; revert acc; induction ks as [|k ks IH]; intros acc Hr Hex;
    [discriminate|].
  cbn [for_each]; rewrite convolve2d_same_response; cbn [bind].
  unfold np_maximum, np_binop.
  rewrite same_response_rows, Hr.
  simpl in Hex; destruct (Nat.even (nrows k)).
  - rewrite broadcast_dim_succ by exact HH; reflexivity.
  - rewrite Nat.add_0_r, broadcast_dim_same.
    destruct (broadcast_dim (ncols acc) (ncols (same_response img k)));
      [|reflexivity].
    cbn [bind]; apply IH; [reflexivity|exact Hex].
Qed.

(** X17: if one of the four corner kernels has an even number of rows and
    the image has at least two rows, [visualize_corner_detection] raises
    numpy's broadcasting ValueError: the 'same'-mode response has H+1 rows
    and cannot be combined with the H-row accumulator by [np.maximum]. *)
Theorem visualize_corner_detection_even_kernel
    (corner_top_left corner_top_right corner_bottom_left corner_bottom_right
       img : ndarray) :
  2 <= nrows img ->
  existsb (fun k => Nat.even (nrows k))
    [corner_top_left; corner_top_right; corner_bottom_left; corner_bottom_right]
  = true ->
  visualize_corner_detection corner_top_left corner_top_right
    corner_bottom_left corner_bottom_right img
  = Raise ValueError_broadcast.
Proof.
  intros HH Hex; unfold visualize_corner_detection.
  rewrite corner_panels_four; cbn [bind].
  unfold combine_corners.
  rewrite combine_corners_loop_even; auto.
Qed.

Lemma visualize_corner_detection_even_kernel_witness :
  visualize_corner_detection sobel_x sobel_y kernel_2x3 prewitt_y grid_4x4
  = Raise ValueError_broadcast.
Proof.
  apply (visualize_corner_detection_even_kernel sobel_x sobel_y kernel_2x3
           prewitt_y grid_4x4); [simpl; lia|reflexivity].
Defined.

(** * The filter bank of Part 6 *)

(** X18: every kernel of the [filters] dictionary (Sobel X, Sobel Y,
    Laplacian, Sharpening, Gaussian Blur) is odd-sized, so the loop
    [convolve2d(real_img, kernel, padding='same')] never raises and every
    result has the shape of the image. *)
Theorem filter_bank_keeps_shape (image : ndarray) (name : string) (kernel : ndarray) :
  In (name, kernel) filters ->
  exists out, convolve2d image kernel "same" = Ok out
    /\ wf out = true /\ shape out = shape image.
Proof.
  intros Hin.
  assert (Hodd : odd_shaped kernel = true).
  { simpl in Hin.
    repeat (destruct Hin as [[= <- <-]|Hin]; [reflexivity|]).
    contradiction. }
  apply andb_true_iff in Hodd as [Hoh How].
  eexists; split; [apply convolve2d_same_odd; assumption|].
  split; [apply wf_tabulate|reflexivity].
Qed.

Lemma filter_bank_keeps_shape_witness :
  exists out, convolve2d grid_4x4 gaussian_blur "same" = Ok out
    /\ wf out = true /\ shape out = shape grid_4x4.
Proof.
  apply (filter_bank_keeps_shape grid_4x4 "Gaussian Blur" gaussian_blur).
  simpl; auto 6.
Defined.

(** * The test images *)

Lemma Qceqb_eq (x y : Qc) : Qceqb x y = true -> x = y.
Proof.
  intros H; apply Qc_is_canon, Qeq_bool_iff; exact H.
Qed.

Lemma is_image_spec (h w : nat) (p : Qc -> bool) (a : ndarray) :
  is_image h w p a = true ->
  wf a = true /\ shape a = (h, w)
  /\ forall i j, i < h -> j < w -> p (get a i j) = true.
Proof.
  unfold is_image; rewrite !andb_true_iff, !Nat.eqb_eq.
  intros [[[Hwf Hr] Hc] Hall]; split_all; auto.
  - unfold shape; congruence.
  - intros i j Hi Hj; apply all_cells_get; auto; lia.
Qed.

Lemma binary_cell_spec (x : Qc) : binary_cell x = true -> x = 0%Qc \/ x = qc 255.
Proof.
  unfold binary_cell; rewrite orb_true_iff.
  intros [H|H]; apply Qceqb_eq in H; auto.
Qed.

Lemma drawn_as_spec (h w : nat) (lit : nat -> nat -> bool) (v : Qc) (a : ndarray)
    (i j : nat) :
  drawn_as h w lit v a = true -> i < h -> j < w ->
  get a i j = if lit i j then v else 0%Qc.
Proof.
  unfold drawn_as; rewrite forallb_forall; intros H Hi Hj.
  specialize (H i ltac:(apply in_seq; lia)).
  rewrite forallb_forall in H.
  apply Qceqb_eq, H, in_seq; lia.
Qed.

(** Each of the five images is built without exception, is a 100x100
    black-and-white image, and is lit exactly where expected. *)
Lemma test_image_checks :
  (exists a, img_lines = Ok a /\ is_image 100 100 binary_cell a = true
             /\ drawn_as 100 100 lines_lit (qc 255) a = true)
  /\ (exists a, img_square = Ok a /\ is_image 100 100 binary_cell a = true
                /\ drawn_as 100 100 square_lit (qc 255) a = true)
  /\ (exists a, img_diag = Ok a /\ is_image 100 100 binary_cell a = true
                /\ drawn_as 100 100 diagonals_lit (qc 255) a = true)
  /\ (exists a, img_corners = Ok a /\ is_image 100 100 binary_cell a = true
                /\ drawn_as 100 100 corners_lit (qc 255) a = true)
  /\ (exists a, img_circle = Ok a /\ is_image 100 100 binary_cell a = true
                /\ drawn_as 100 100 circle_lit (qc 255) a = true).
Proof.
  assert (Hcheck : forall (r : result ndarray) lit,
            match r with
            | Ok a => is_image 100 100 binary_cell a
                      && drawn_as 100 100 lit (qc 255) a
            | Raise _ => false
            end = true ->
            exists a, r = Ok a /\ is_image 100 100 binary_cell a = true
                      /\ drawn_as 100 100 lit (qc 255) a = true).
  { intros [a|e] lit H; [|discriminate].
    apply andb_true_iff in H as [H1 H2]; exists a; auto. }
  split_all; apply Hcheck; vm_compute; reflexivity.
Qed.

(** X19: [create_test_images] raises nothing and returns the five images
    under the keys lines, square, diagonals, corners, circle, in this
    order; every key has a well-formed 100x100 image whose cells are all 0
    or 255, and any other key is missing. *)
Theorem create_test_images_spec :
  exists images,
    create_test_images = Ok images
    /\ map fst images
       = ["lines"; "square"; "diagonals"; "corners"; "circle"]%string
    /\ (forall name, In name (map fst images) <-> dict_get images name <> None)
    /\ forall name img, dict_get images name = Some img ->
         wf img = true /\ shape img = (100, 100)
         /\ forall i j, i < 100 -> j < 100 ->
              get img i j = 0%Qc \/ get img i j = qc 255.
Proof.
  destruct test_image_checks
    as ((a1 & E1 & H1 & _) & (a2 & E2 & H2 & _) & (a3 & E3 & H3 & _)
        & (a4 & E4 & H4 & _) & (a5 & E5 & H5 & _)).
  unfold create_test_images; rewrite E1, E2, E3, E4, E5; cbn [bind].
  eexists; split; [reflexivity|]; split; [reflexivity|]; split.
  - intros name; split.
    + cbn [map fst In]; intros H.
      repeat (destruct H as [<-|H]; [vm_compute; discriminate|]).
      contradiction.
    + cbn [map fst dict_get In]; intros H.
      destruct (String.eqb_spec "lines" name); [auto|].
      destruct (String.eqb_spec "square" name); [auto|].
      destruct (String.eqb_spec "diagonals" name); [auto|].
      destruct (String.eqb_spec "corners" name); [auto 6|].
      destruct (String.eqb_spec "circle" name); [auto 7|].
      exfalso; apply H; reflexivity.
  - assert (Himg : forall a, is_image 100 100 binary_cell a = true ->
              wf a = true /\ shape a = (100, 100)
              /\ forall i j, i < 100 -> j < 100 ->
                   get a i j = 0%Qc \/ get a i j = qc 255).
    { intros a Ha; apply is_image_spec in Ha as (Hwf & Hs & Hc).
      split_all; auto; intros i j Hi Hj; apply binary_cell_spec; auto. }
    intros name img; cbn [dict_get].
    destruct (String.eqb "lines" name); [intros [= <-]; auto|].
    destruct (String.eqb "square" name); [intros [= <-]; auto|].
    destruct (String.eqb "diagonals" name); [intros [= <-]; auto|].
    destruct (String.eqb "corners" name); [intros [= <-]; auto|].
    destruct (String.eqb "circle" name); [intros [= <-]; auto|].
    discriminate.
Qed.

(** X20: where the test images are lit (255; all other cells are 0), for
    row i and column j below 100:
    - lines: columns 20 and 80 on rows 40..59, rows 20 and 80 on columns
      30..69;
    - square: rows and columns 30..69;
    - diagonals: on rows 30..69, the cells j = i and i + j = 100;
    - corners: four L shapes, each a 10-cell horizontal arm running right
      from column c and a 10-cell vertical arm in column c, with
      (row, rows of the vertical arm, c) = (20, 20..29, 20), (20, 20..29, 70),
      (80, 70..79, 20), (80, 70..79, 70);
    - circle: the disc (j-50)^2 + (i-50)^2 <= 25^2. *)
Theorem create_test_images_pixels :
  exists lines square diagonals corners circle,
    create_test_images
    = Ok [("lines", lines); ("square", square); ("diagonals", diagonals);
          ("corners", corners); ("circle", circle)]%string
    /\ forall i j, i < 100 -> j < 100 ->
         get lines i j = (if lines_lit i j then qc 255 else 0%Qc)
         /\ get square i j = (if square_lit i j then qc 255 else 0%Qc)
         /\ get diagonals i j = (if diagonals_lit i j then qc 255 else 0%Qc)
         /\ get corners i j = (if corners_lit i j then qc 255 else 0%Qc)
         /\ get circle i j = (if circle_lit i j then qc 255 else 0%Qc).
Proof.
  destruct test_image_checks
    as ((a1 & E1 & _ & H1) & (a2 & E2 & _ & H2) & (a3 & E3 & _ & H3)
        & (a4 & E4 & _ & H4) & (a5 & E5 & _ & H5)).
  exists a1, a2, a3, a4, a5.
  unfold create_test_images; rewrite E1, E2, E3, E4, E5; cbn [bind].
  split; [reflexivity|].
  intros i j Hi Hj; split_all; apply (drawn_as_spec 100 100); assumption.
Qed.

(** * The real test image *)

Lemma real_test_base_ok :
  exists base, real_test_base = Ok base
               /\ is_image 200 200 base_cell base = true.
Proof.
  assert (H : match real_test_base with
              | Ok a => is_image 200 200 base_cell a
              | Raise _ => false
              end = true) by (vm_compute; reflexivity).
  destruct real_test_base as [a|e]; [|discriminate].
  exists a; auto.
Qed.

Lemma Qcmin_cases (x y : Qc) : Qcmin x y = x \/ Qcmin x y = y.
Proof. unfold Qcmin; destruct (Qcleb x y); auto. Qed.

Lemma clip_between (x lo hi : Qc) :
  (lo <= hi)%Qc -> (lo <= Qcmin (Qcmax x lo) hi <= hi)%Qc.
Proof.
  intros Hlh; split; [|apply Qcmin_le_r].
  destruct (Qcmin_cases (Qcmax x lo) hi) as [-> | ->];
    [apply Qcmax_le_r|exact Hlh].
Qed.

(** X21: whatever noise is drawn, [create_real_test_image] raises nothing
    (all the assignments of the rectangle, the disc and the triangle are in
    bounds) and returns a well-formed 200x200 image; each cell is the cell
    of the noise-free image plus the noise, clipped to [0, 255], so every
    cell lies in the pixel range. *)
Theorem create_real_test_image_range (normal : nat * nat -> ndarray) :
  wf (normal (200, 200)) = true -> shape (normal (200, 200)) = (200, 200) ->
  exists base img,
    real_test_base = Ok base
    /\ create_real_test_image normal = Ok img
    /\ wf img = true /\ shape img = (200, 200)
    /\ forall i j, i < 200 -> j < 200 ->
         get img i j
         = Qcmin (Qcmax (get base i j + get (normal (200, 200)) i j) 0) (qc 255)
         /\ (0 <= get img i j <= qc 255)%Qc.
Proof.
  intros Hwfn Hsn.
  destruct real_test_base_ok as (base & E & Hbase).
  apply is_image_spec in Hbase as (Hwfb & Hsb & _).
  exists base; eexists; split; [exact E|].
  unfold create_real_test_image; rewrite E; cbn [bind]; rewrite Hsb.
  set (noise := normal (200, 200)) in *.
  injection Hsb as Hbr Hbc; injection Hsn as Hnr Hnc.
  unfold np_add; rewrite np_binop_same_shape by congruence; cbn [bind].
  unfold np_clip; rewrite np_map_tabulate, Hbr, Hbc.
  split; [reflexivity|].
  split; [apply wf_tabulate|]; split; [reflexivity|].
  intros i j Hi Hj; rewrite get_tabulate by assumption.
  split; [reflexivity|].
  apply clip_between, Qcleb_le; reflexivity.
Qed.

Lemma create_real_test_image_range_witness :
  exists base img,
    real_test_base = Ok base
    /\ create_real_test_image (fun s => full (fst s) (snd s) 0%Qc) = Ok img
    /\ wf img = true /\ shape img = (200, 200)
    /\ forall i j, i < 200 -> j < 200 ->
         get img i j
         = Qcmin (Qcmax (get base i j + get (full 200 200 0%Qc) i j) 0) (qc 255)
         /\ (0 <= get img i j <= qc 255)%Qc.
Proof.
  apply (create_real_test_image_range (fun s => full (fst s) (snd s) 0%Qc));
    reflexivity.
Defined.

(** * Sobel X on a vertical line *)

Lemma get_padded_vertical_line (h w c : nat) (v : Qc) (k l : nat) :
  c < w -> 1 <= k -> k < 1 + h ->
  get (np_pad (vertical_line_image h w c v) 1 1) k l
  = if l =? c + 1 then v else 0%Qc.
Proof.
  intros Hc Hk1 Hk2; unfold vertical_line_image.
  rewrite get_np_pad by apply wf_tabulate; cbn [nrows ncols tabulate].
  destruct (Nat.leb_spec 1 k); [|lia].
  destruct (Nat.ltb_spec k (1 + h)); [|lia].
  destruct (Nat.leb_spec 1 l), (Nat.ltb_spec l (1 + w)), (Nat.eqb_spec l (c + 1));
    simpl; try reflexivity; try lia.
  - rewrite get_tabulate by lia.
    destruct (Nat.eqb_spec (l - 1) c); [reflexivity|lia].
  - rewrite get_tabulate by lia.
    destruct (Nat.eqb_spec (l - 1) c); [lia|reflexivity].
Qed.

(** X22: Sobel X on a vertical line. For an image that is v on column c
    and 0 elsewhere, the 'same'-mode response of sobel_x on every row that
    is not a border row is 4v on the column left of the line, -4v on the
    column right of it, and 0 on every other column (the line included). *)
Theorem sobel_x_on_vertical_line (h w c : nat) (v : Qc) (i j : nat) :
  c < w -> 1 <= i -> i + 2 <= h -> j < w ->
  exists out,
    convolve2d (vertical_line_image h w c v) sobel_x "same" = Ok out
    /\ get out i j
       = if j + 1 =? c then (qc 4 * v)%Qc
         else if j =? c + 1 then (- (qc 4 * v))%Qc
         else 0%Qc.
Proof.
  intros Hc Hi1 Hi2 Hj.
  eexists; split; [apply convolve2d_same_odd; reflexivity|].
  cbn [nrows ncols vertical_line_image tabulate].
  rewrite get_tabulate by lia.
  rewrite pad_image_same.
  change (nrows sobel_x / 2) with 1; change (ncols sobel_x / 2) with 1.
  unfold window_sum.
  change (nrows sobel_x) with 3; change (ncols sobel_x) with 3.
  cbn [big_sum].
  rewrite !get_padded_vertical_line by lia.
  change (get sobel_x 0 0) with (qc (-1)); change (get sobel_x 0 1) with (qc 0);
    change (get sobel_x 0 2) with (qc 1); change (get sobel_x 1 0) with (qc (-2));
    change (get sobel_x 1 1) with (qc 0); change (get sobel_x 1 2) with (qc 2);
    change (get sobel_x 2 0) with (qc (-1)); change (get sobel_x 2 1) with (qc 0);
    change (get sobel_x 2 2) with (qc 1).
  assert (E0 : qc 0 = 0%Qc) by (apply Qc_is_canon; reflexivity).
  assert (E1 : qc 1 = 1%Qc) by (apply Qc_is_canon; reflexivity).
  assert (E2 : qc 2 = (1 + 1)%Qc) by (apply Qc_is_canon; reflexivity).
  assert (E4 : qc 4 = (1 + 1 + 1 + 1)%Qc) by (apply Qc_is_canon; reflexivity).
  assert (Em1 : qc (-1) = (- (1))%Qc) by (apply Qc_is_canon; reflexivity).
  assert (Em2 : qc (-2) = (- (1 + 1))%Qc) by (apply Qc_is_canon; reflexivity).
  rewrite E0, E1, E2, E4, Em1, Em2.
  destruct (Nat.eqb_spec (j + 0) (c + 1)), (Nat.eqb_spec (j + 1) (c + 1)),
    (Nat.eqb_spec (j + 2) (c + 1)), (Nat.eqb_spec (j + 1) c),
    (Nat.eqb_spec j (c + 1)); try lia; ring.
Qed.

Lemma sobel_x_on_vertical_line_witness :
  exists out,
    convolve2d (vertical_line_image 5 6 3 (qc 255)) sobel_x "same" = Ok out
    /\ get out 2 2
       = if 2 + 1 =? 3 then (qc 4 * qc 255)%Qc
         else if 2 =? 3 + 1 then (- (qc 4 * qc 255))%Qc
         else 0%Qc.
Proof.
  apply (sobel_x_on_vertical_line 5 6 3 (qc 255) 2 2); lia.
Defined.
